(** * git-auto-updater: a shallow embedding of the supervisor and its proofs

    The program is a Node.js script.  It parses its command line into the
    process-wide [conf] object, validates it, prepares the working tree,
    spawns the supervised command and then lives in the event loop: a one-shot
    timer runs [checkForUpdates], and the ['exit'] event of the child runs the
    listeners that [startCommand] and [update] registered on it.

    The embedding follows the script function by function.  The two globals
    ([conf], [commandProcess]), the table of live [ChildProcess] objects with
    their listeners, the outstanding timers and the history of observable
    effects form the [state]; every call that leaves the script ([git], the
    file system, [spawn], [kill], the clock) is answered by an [env], and may
    throw.  One event-loop turn is one call of [dispatch]. *)

From Stdlib Require Import ZArith String Ascii List Lia Bool.
From stdpp Require Import base option list gmap strings.

Local Open Scope string_scope.
Local Open Scope Z_scope.
Local Open Scope list_scope.

(** ** The JavaScript values the script computes with *)

Module JS.

(** A Number.  The script only ever holds integers (results of
    [Number.parseInt] and integer arithmetic on them) and [NaN].  Integers
    are exact below 2^53, which is the range this model speaks about: a
    numeral of more than fifteen digits is rounded by JavaScript (and is
    [Infinity] past 308 digits) and kept exact here.  A statement about the
    value of a parsed numeral, of a quotient or of a product therefore
    carries the bound under which the script computes the same value. *)
Inductive number : Type :=
| Num (z : Z)
| NaN.

Definition number_eq_dec (a b : number) : {a = b} + {a <> b}.
Proof. decide equality. apply Z.eq_dec. Defined.

#[global] Instance number_eq_decision : EqDecision number := number_eq_dec.

Definition lift2 (f : Z -> Z -> Z) (a b : number) : number :=
  match a, b with
  | Num x, Num y => Num (f x y)
  | _, _ => NaN
  end.

Definition add : number -> number -> number := lift2 Z.add.
Definition sub : number -> number -> number := lift2 Z.sub.
Definition mul : number -> number -> number := lift2 Z.mul.

(** [a % b]: the sign follows the dividend; a zero divisor gives [NaN]. *)
Definition rem (a b : number) : number :=
  match a, b with
  | Num x, Num y => if (y =? 0) then NaN else Num (Z.rem x y)
  | _, _ => NaN
  end.

(** [Math.floor(a / b)] for a non-zero [b]. *)
Definition floor_div (a b : number) : number :=
  match a, b with
  | Num x, Num y => if (y =? 0) then NaN else Num (x / y)
  | _, _ => NaN
  end.

(** [Math.min(a, b)]: [NaN] as soon as one argument is. *)
Definition min : number -> number -> number := lift2 Z.min.

(** Relational operators: any comparison with [NaN] is false. *)
Definition gt (a b : number) : bool :=
  match a, b with
  | Num x, Num y => (y <? x)
  | _, _ => false
  end.

Definition lt (a b : number) : bool := gt b a.

Definition strict_eq (a b : number) : bool :=
  match a, b with
  | Num x, Num y => (x =? y)
  | _, _ => false
  end.

(** [Number.isInteger]. *)
Definition isInteger (a : number) : bool :=
  match a with
  | Num _ => true
  | NaN => false
  end.

Definition isNaN (a : number) : bool := negb (isInteger a).

(** A string-or-undefined cell ([args[0]] past the end of the array is
    [undefined], the defaults of [conf] are [null]): [None] stands for both.
    In a condition such a value counts as true unless it is absent or the
    empty string. *)
Definition truthy (v : option string) : bool :=
  match v with
  | Some s => negb (String.eqb s "")
  | None => false
  end.

(** *** [Number.parseInt] with no radix argument

    The argument is turned into a string ([undefined] reads "undefined"),
    leading white space is skipped (the ASCII white space; command-line
    arguments are taken to be ASCII), then a sign, then a [0x] prefix, which
    selects radix 16; the value is that of the longest prefix of digits, and
    [NaN] when there is none. *)

Definition is_white_space (c : ascii) : bool :=
  let n := nat_of_ascii c in
  Nat.eqb n 32 || (Nat.leb 9 n && Nat.leb n 13).

Fixpoint skip_white_space (s : string) : string :=
  match s with
  | String c s' => if is_white_space c then skip_white_space s' else s
  | EmptyString => s
  end.

Definition digit_value (c : ascii) : option Z :=
  let n := Z.of_nat (nat_of_ascii c) in
  if (48 <=? n) && (n <=? 57) then Some (n - 48)
  else if (97 <=? n) && (n <=? 122) then Some (n - 87)
  else if (65 <=? n) && (n <=? 90) then Some (n - 55)
  else None.

(** The longest prefix of digits of the radix, read as a numeral; [acc] is
    [None] until a first digit has been read. *)
Fixpoint digits (radix : Z) (acc : option Z) (s : string) : option Z :=
  match s with
  | EmptyString => acc
  | String c s' =>
      match digit_value c with
      | Some d =>
          if (d <? radix)
          then digits radix (Some (radix * default 0 acc + d)) s'
          else acc
      | None => acc
      end
  end.

Definition parseInt (v : option string) : number :=
  let s := skip_white_space (default "undefined" v) in
  let '(sign, s) :=
    match s with
    | String "-" s' => (-1, s')
    | String "+" s' => (1, s')
    | _ => (1, s)
    end in
  let '(radix, s) :=
    match s with
    | String "0" (String "x" s') => (16, s')
    | String "0" (String "X" s') => (16, s')
    | _ => (10, s)
    end in
  match digits radix None s with
  | Some n => Num (sign * n)
  | None => NaN
  end.

(** [s.slice(0, n)]. *)
Definition slice0 (n : nat) (s : string) : string := substring 0 n s.

(** *** [Path.basename(p, ext)] on POSIX paths

    The last component of the path, trailing slashes aside, without the
    extension when it ends in it; a component that is the extension and no
    more is kept whole, except when the path itself is the extension: then
    the result is the empty string. *)

Fixpoint drop_slashes (l : list ascii) : list ascii :=
  match l with
  | "/"%char :: l' => drop_slashes l'
  | _ => l
  end.

Fixpoint until_slash (l : list ascii) : list ascii :=
  match l with
  | [] => []
  | "/"%char :: _ => []
  | c :: l' => c :: until_slash l'
  end.

Fixpoint strip_prefix (p l : list ascii) : option (list ascii) :=
  match p, l with
  | [], _ => Some l
  | a :: p', b :: l' => if Ascii.eqb a b then strip_prefix p' l' else None
  | _ :: _, [] => None
  end.

Definition basename (p ext : string) : string :=
  if String.eqb p ext then ""
  else
    let last_rev := until_slash (drop_slashes (rev (list_ascii_of_string p))) in
    match strip_prefix (rev (list_ascii_of_string ext)) last_rev with
    | Some (c :: stem_rev) => string_of_list_ascii (rev (c :: stem_rev))
    | _ => string_of_list_ascii (rev last_rev)
    end.

End JS.

(** ** Configuration *)

(** [conf.command]: an executable name and its arguments, in order. *)
Record command_spec : Type := {
  name : string;
  args : list string;
}.

(** [conf.time]: the daily time of the check. *)
Record time_of_day : Type := {
  hours : JS.number;
  minutes : JS.number;
}.

(** The global [conf] object. *)
Record config : Type := {
  repository : option string;
  branch : option string;
  path : option string;
  frequency : JS.number;
  time : option time_of_day;
  signal : option string;
  command : option command_spec;
}.

(** The initial value of [conf]. *)
Definition conf0 : config := {|
  repository := None;
  branch := Some "master";
  path := None;
  frequency := JS.Num 1440;
  time := None;
  signal := Some "SIGINT";
  command := None;
|}.

Definition set_repository (v : option string) (c : config) : config :=
  {| repository := v; branch := branch c; path := path c;
     frequency := frequency c; time := time c; signal := signal c;
     command := command c |}.

Definition set_branch (v : option string) (c : config) : config :=
  {| repository := repository c; branch := v; path := path c;
     frequency := frequency c; time := time c; signal := signal c;
     command := command c |}.

Definition set_path (v : option string) (c : config) : config :=
  {| repository := repository c; branch := branch c; path := v;
     frequency := frequency c; time := time c; signal := signal c;
     command := command c |}.

Definition set_frequency (v : JS.number) (c : config) : config :=
  {| repository := repository c; branch := branch c; path := path c;
     frequency := v; time := time c; signal := signal c;
     command := command c |}.

Definition set_time (v : option time_of_day) (c : config) : config :=
  {| repository := repository c; branch := branch c; path := path c;
     frequency := frequency c; time := v; signal := signal c;
     command := command c |}.

Definition set_signal (v : option string) (c : config) : config :=
  {| repository := repository c; branch := branch c; path := path c;
     frequency := frequency c; time := time c; signal := v;
     command := command c |}.

Definition set_command (v : option command_spec) (c : config) : config :=
  {| repository := repository c; branch := branch c; path := path c;
     frequency := frequency c; time := time c; signal := signal c;
     command := v |}.

(** ** The state of the supervisor and the world around it *)

(** A [ChildProcess] object is known by its rank of creation. *)
Definition pid : Type := nat.

(** The two closures the script registers on the ['exit'] event of a child:
    the one of [startCommand], [() => { commandProcess = null; }], and the
    one of [update], [() => { commandProcess = null; update(); }]. *)
Inductive listener : Type :=
| ClearHandle
| ClearHandleAndUpdate.

(** What [console.log] prints.  Lines built from strings are kept as text.
    The two places that print numbers keep the values instead: [ConfigEcho]
    stands for the five lines that echo the configuration at startup, and
    [Scheduling delay] for the line that announces the next check, where the
    script prints [delay / 1000] seconds. *)
Inductive message : Type :=
| Line (text : string)
| ConfigEcho (c : config)
| Scheduling (delay : JS.number).

(** The observable effects of the script, and the two kinds of event that the
    event loop delivers to it, in the order in which they happen. *)
Inductive action : Type :=
| Log (m : message)
| LogError (text : string)
| StatSync (p : option string)
| Chdir (p : option string)
| ExecFileSync (file : string) (argv : list string)
| Spawn (p : pid) (file : string) (argv : list string) (stdio : string)
| Kill (p : pid) (sig : option string)
| SetTimeout (delay : JS.number)
| SetInterval (delay : JS.number)
| TimerFired
| ChildExited (p : pid).

Record state : Type := {
  conf : config;
  (* var commandProcess *)
  commandProcess : option pid;
  (* the children that have not exited yet, each with its 'exit' listeners
     in the order of registration *)
  children : gmap pid (list listener);
  (* how many children have been created *)
  spawned : nat;
  (* the delays of the timers that are armed: one-shot timers that have not
     fired yet (and, in the interval-only revision, the repeating one) *)
  timers : list JS.number;
  history : list action;
}.

Definition state0 : state := {|
  conf := conf0;
  commandProcess := None;
  children := ∅;
  spawned := 0%nat;
  timers := [];
  history := [];
|}.

Definition set_conf (f : config -> config) (s : state) : state :=
  {| conf := f (conf s); commandProcess := commandProcess s;
     children := children s; spawned := spawned s; timers := timers s;
     history := history s |}.

Definition set_commandProcess (v : option pid) (s : state) : state :=
  {| conf := conf s; commandProcess := v;
     children := children s; spawned := spawned s; timers := timers s;
     history := history s |}.

Definition set_children (f : gmap pid (list listener) -> gmap pid (list listener))
    (s : state) : state :=
  {| conf := conf s; commandProcess := commandProcess s;
     children := f (children s); spawned := spawned s; timers := timers s;
     history := history s |}.

Definition set_spawned (n : nat) (s : state) : state :=
  {| conf := conf s; commandProcess := commandProcess s;
     children := children s; spawned := n; timers := timers s;
     history := history s |}.

Definition set_timers (f : list JS.number -> list JS.number) (s : state) : state :=
  {| conf := conf s; commandProcess := commandProcess s;
     children := children s; spawned := spawned s; timers := f (timers s);
     history := history s |}.

Definition record (a : action) (s : state) : state :=
  {| conf := conf s; commandProcess := commandProcess s;
     children := children s; spawned := spawned s; timers := timers s;
     history := history s ++ [a] |}.

(** A call that leaves the script returns or throws; a thrown error may carry
    a [code] (['ENOENT'], ...). *)
Inductive answer (A : Type) : Type :=
| Returns (a : A)
| Throws (code : option string).
Arguments Returns {A} a.
Arguments Throws {A} code.

(** The answers of the world during one turn of the event loop (or during
    startup), one per call site. *)
Record env : Type := {
  (* ChildProcess.execFileSync('git', argv).toString() *)
  git : list string -> answer string;
  (* Fs.statSync(p).isDirectory() *)
  statSync : option string -> answer bool;
  (* process.chdir(conf.path), in the try block and after the clone *)
  chdir_existing : answer unit;
  chdir_cloned : answer unit;
  (* ChildProcess.spawn(file, argv, { stdio: 'inherit' }) *)
  spawn : string -> list string -> answer unit;
  (* child.kill(sig) *)
  kill : pid -> option string -> answer unit;
  (* (new Date()).getHours(), .getMinutes() *)
  clock : Z * Z;
}.

(** ** A state and exception monad for the script *)

Inductive result (A : Type) : Type :=
| Ok (a : A) (s : state)
| Exit (code : Z) (s : state)
| Throw (code : option string) (s : state).
Arguments Ok {A} a s.
Arguments Exit {A} code s.
Arguments Throw {A} code s.

Definition M (A : Type) : Type := env -> state -> result A.

Definition ret {A : Type} (a : A) : M A := fun _ s => Ok a s.

Definition bind {A B : Type} (m : M A) (k : A -> M B) : M B :=
  fun e s =>
    match m e s with
    | Ok a s' => k a e s'
    | Exit c s' => Exit c s'
    | Throw c s' => Throw c s'
    end.

Declare Scope js_scope.
Delimit Scope js_scope with js.
Notation "'let*' x ':=' m 'in' k" := (bind m (fun x => k))
  (at level 10, x name, m at level 100, k at level 200) : js_scope.
Notation "m '>>' k" := (bind m (fun _ => k))
  (at level 100, k at level 200, right associativity) : js_scope.
Local Open Scope js_scope.

Definition gets {A : Type} (f : state -> A) : M A := fun _ s => Ok (f s) s.
Definition modify (f : state -> state) : M unit := fun _ s => Ok tt (f s).
Definition emit (a : action) : M unit := modify (record a).
Definition throw {A : Type} (code : option string) : M A := fun _ s => Throw code s.

(** [process.exit(code)]: ends the program at once; no [catch] sees it. *)
Definition process_exit {A : Type} (code : Z) : M A := fun _ s => Exit code s.

Definition ask {A : Type} (f : env -> answer A) : M A :=
  fun e s =>
    match f e with
    | Returns a => Ok a s
    | Throws c => Throw c s
    end.

(** [try { body } catch (e) { handler(e.code) }]. *)
Definition try_catch {A : Type} (body : M A) (handler : option string -> M A) : M A :=
  fun e s =>
    match body e s with
    | Throw c s' => handler c e s'
    | r => r
    end.

Definition when (b : bool) (m : M unit) : M unit := if b then m else ret tt.

Fixpoint forEach {A : Type} (f : A -> M unit) (l : list A) : M unit :=
  match l with
  | [] => ret tt
  | x :: l' => f x >> forEach f l'
  end.

Definition console_log (m : message) : M unit := emit (Log m).
Definition console_error (text : string) : M unit := emit (LogError text).

(** [ChildProcess.execFileSync('git', argv)]: an [undefined] among the
    arguments reaches git as the word [undefined] (the branch after a [-b]
    that ends the command line is the one cell that can be absent here). *)
Definition execFileSync_git (argv : list (option string)) : M string :=
  let words := map (default "undefined") argv in
  emit (ExecFileSync "git" words) >> ask (fun e => git e words).

(** ** The script *)

Definition usage : list string :=
  [ "usage: git-auto-updater [options] [-- [command]]";
    "";
    "Periodically checks a git repository for updates and runs a command";
    "between updates.";
    "";
    "options:";
    "  -h, --help          print this message";
    "  -r, --repository    git repository URI";
    "  -b, --branch        git branch (Default: master)";
    "  -p, --path          local clone path (Default: repository name)";
    "  -f, --frequency     update check frequency, in minutes (Default: 1440)";
    "  -t, --time          update check time, overrides frequency, HHMM (e.g. 0200)";
    "  -s, --signal        signal to terminate command (Default: SIGINT)";
    "  --                  stop processing command line arguments" ].

Definition printUsage : M unit :=
  forEach (fun line => console_log (Line line)) usage.

(** The body of the [--time] case: the record stored in [conf.time]. *)
Definition parseTime (operand : option string) : time_of_day :=
  let time := JS.parseInt operand in
  {| hours := JS.min (JS.floor_div time (JS.Num 100)) (JS.Num 23);
     minutes := JS.min (JS.rem time (JS.Num 100)) (JS.Num 59) |}.

(** First argument after [--]: the name of the command; later ones are pushed
    on its argument list. *)
Definition buildCommand (arg : string) (c : config) : config :=
  match command c with
  | None => set_command (Some {| name := arg; args := [] |}) c
  | Some cmd =>
      set_command (Some {| name := name cmd; args := args cmd ++ [arg] |}) c
  end.

Definition is_one_of (arg : string) (l : list string) : bool :=
  existsb (String.eqb arg) l.

(** The [while (args.length)] loop.  [arg] is [args[0]], already shifted off;
    an option reads its operand [args[0]] ([undefined] when nothing is left)
    and shifts once more. *)
Fixpoint parseLoop (buildingCommand : bool) (args : list string) : M unit :=
  match args with
  | [] => ret tt
  | arg :: rest =>
      let operand := head rest in
      let next :=
        match rest with
        | [] => ret tt
        | _ :: rest' => parseLoop false rest'
        end in
      if buildingCommand then
        modify (set_conf (buildCommand arg)) >> parseLoop true rest
      else if is_one_of arg ["-h"; "--help"] then
        printUsage >> process_exit 0
      else if is_one_of arg ["-r"; "--repository"] then
        modify (set_conf (set_repository operand)) >> next
      else if is_one_of arg ["-b"; "--branch"] then
        modify (set_conf (set_branch operand)) >> next
      else if is_one_of arg ["-p"; "--path"] then
        modify (set_conf (set_path operand)) >> next
      else if is_one_of arg ["-f"; "--frequency"] then
        modify (set_conf (set_frequency (JS.parseInt operand))) >> next
      else if is_one_of arg ["-t"; "--time"] then
        modify (set_conf (set_time (Some (parseTime operand)))) >> next
      else if is_one_of arg ["-s"; "--signal"] then
        modify (set_conf (set_signal operand)) >> next
      else if is_one_of arg ["--"] then
        parseLoop true rest
      else
        parseLoop false rest
  end.

(** [process.argv.splice(1)] keeps everything but the first element. *)
Definition parseArguments (argv : list string) : M unit :=
  parseLoop false (tail argv).

Definition validateConfiguration : M bool :=
  let* c := gets conf in
  when (negb (JS.truthy (path c)) && JS.truthy (repository c))
    (modify (set_conf
       (set_path (Some (JS.basename (default "" (repository c)) ".git"))))) >>
  let* c := gets conf in
  if negb (JS.truthy (repository c)) && negb (JS.truthy (path c)) then
    ret false
  else if negb (bool_decide (is_Some (time c))) &&
          (negb (JS.isInteger (frequency c)) ||
           JS.lt (frequency c) (JS.Num 1)) then
    ret false
  else
    ret true.

(** [commandProcess.on('exit', l)]: a child that has exited already never
    calls a listener again. *)
Definition on_exit (p : pid) (l : listener) : M unit :=
  modify (set_children (alter (fun ls => ls ++ [l]) p)).

Definition startCommand : M unit :=
  let* c := gets conf in
  match command c with
  | Some cmd =>
      ask (fun e => spawn e (name cmd) (args cmd)) >>
      let* p := gets spawned in
      emit (Spawn p (name cmd) (args cmd) "inherit") >>
      modify (set_spawned (S p)) >>
      modify (set_children (insert p [])) >>
      modify (set_commandProcess (Some p)) >>
      on_exit p ClearHandle
  | None => ret tt
  end.

(** The delay of the time-of-day mode, from [conf.time] and the clock.  The
    locals [hours] and [minutes] of the script are [now_hours] and
    [now_minutes] here. *)
Definition timeOfDayDelay (t : time_of_day) (now : Z * Z) : JS.number :=
  let delay := JS.Num 0 in
  let now_hours := JS.Num (fst now) in
  let now_minutes := JS.Num (snd now) in
  let now_hours :=
    if JS.gt now_hours (hours t) ||
       (JS.gt now_minutes (minutes t) && JS.strict_eq now_hours (hours t))
    then JS.sub now_hours (JS.Num 12)
    else now_hours in
  let delay :=
    JS.add delay
      (JS.mul (JS.mul (JS.mul (JS.sub (hours t) now_hours) (JS.Num 60))
                 (JS.Num 60))
         (JS.Num 1000)) in
  let delay :=
    JS.add delay
      (JS.mul (JS.mul (JS.sub (minutes t) now_minutes) (JS.Num 60))
         (JS.Num 1000)) in
  delay.

Definition intervalDelay (c : config) : JS.number :=
  JS.mul (JS.mul (frequency c) (JS.Num 60)) (JS.Num 1000).

(** [setTimeout(checkForUpdates, delay)]. *)
Definition setTimeout (delay : JS.number) : M unit :=
  emit (SetTimeout delay) >>
  modify (set_timers (fun ts => ts ++ [delay])).

Definition scheduleUpdateCheck : M unit :=
  let* c := gets conf in
  let* delay :=
    match time c with
    | Some t => let* now := (fun e => ret (clock e) e) in ret (timeOfDayDelay t now)
    | None => ret (intervalDelay c)
    end in
  console_log (Scheduling delay) >>
  setTimeout delay.

Definition update : M unit :=
  let* handle := gets commandProcess in
  match handle with
  | Some p =>
      on_exit p ClearHandleAndUpdate >>
      let* c := gets conf in
      ask (fun e => kill e p (signal c)) >>
      emit (Kill p (signal c))
  | None =>
      execFileSync_git [Some "pull"] >>
      console_log (Line "Updated.") >>
      startCommand >>
      scheduleUpdateCheck
  end.

Definition checkForUpdates : M unit :=
  console_log (Line "Checking for update...") >>
  execFileSync_git [Some "fetch"] >>
  let* head_out := execFileSync_git [Some "rev-parse"; Some "HEAD"] in
  let currentRev := JS.slice0 40 head_out in
  let* upstream_out := execFileSync_git [Some "rev-parse"; Some "HEAD@{u}"] in
  let latestRev := JS.slice0 40 upstream_out in
  console_log (Line ("Current revision: " +:+ currentRev)) >>
  console_log (Line ("Latest revision: " +:+ latestRev)) >>
  if negb (String.eqb currentRev latestRev) then
    console_log (Line "Updating...") >>
    update
  else
    scheduleUpdateCheck.

(** The body of an ['exit'] listener. *)
Definition run_listener (l : listener) : M unit :=
  match l with
  | ClearHandle => modify (set_commandProcess None)
  | ClearHandleAndUpdate => modify (set_commandProcess None) >> update
  end.

Definition double_quote : string := String "034"%char EmptyString.

(** [conf.command.args.forEach(arg => { commandString += ` "${arg}"` })]. *)
Definition commandString (cmd : command_spec) : string :=
  fold_left
    (fun acc arg => acc +:+ " " +:+ double_quote +:+ arg +:+ double_quote)
    (args cmd) (name cmd).

(** Clone the repository if the path does not exist, else change into it and
    pull: the [try] block at the top level and its [catch]. *)
Definition prepareWorkingTree : M unit :=
  let* c := gets conf in
  try_catch
    (emit (StatSync (path c)) >>
     let* isDirectory := ask (fun e => statSync e (path c)) in
     when (negb isDirectory)
       (console_error "Path exists, but is not a directory. Aborting." >>
        process_exit 1) >>
     emit (Chdir (path c)) >>
     ask chdir_existing >>
     execFileSync_git [Some "fetch"] >>
     try_catch
       (execFileSync_git [Some "checkout"; branch c] >> ret tt)
       (fun _ =>
          execFileSync_git
            [Some "checkout"; Some "-t";
             Some ("origin/" +:+ default "undefined" (branch c))] >> ret tt) >>
     execFileSync_git [Some "pull"] >> ret tt)
    (fun code =>
       when (negb (bool_decide (code = Some "ENOENT")))
         (console_error "Encountered an error accessing path" >>
          process_exit 1) >>
       when (negb (JS.truthy (repository c)))
         (console_error "Failed to pull repository and no repostiory URI given." >>
          process_exit 1) >>
       execFileSync_git
         [Some "clone"; repository c; path c; Some "--branch"; branch c] >>
       emit (Chdir (path c)) >>
       ask chdir_cloned).

(** The top level of the script down to the preparation of the working
    tree. *)
Definition setUp (argv : list string) : M unit :=
  parseArguments argv >>
  let* valid := validateConfiguration in
  when (negb valid)
    (console_log (Line "Not enough or invalid arguments") >>
     printUsage >>
     process_exit 1) >>
  let* c := gets conf in
  console_log (ConfigEcho c) >>
  match command c with
  | Some cmd => console_log (Line ("command: " +:+ commandString cmd))
  | None => ret tt
  end >>
  prepareWorkingTree.

(** The whole top level, up to the point where it returns to the event loop:
    spawn the child process, if one was given, and schedule the update. *)
Definition script (argv : list string) : M unit :=
  setUp argv >>
  startCommand >>
  scheduleUpdateCheck.

(** ** The event loop *)

(** How a run of script code ends: back in the event loop, by
    [process.exit], or by an exception that nothing catches. *)
Inductive outcome : Type :=
| Running (s : state)
| Exited (code : Z) (s : state)
| Crashed (s : state).

Definition finish (r : result unit) : outcome :=
  match r with
  | Ok _ s => Running s
  | Exit code s => Exited code s
  | Throw _ s => Crashed s
  end.

Definition main (argv : list string) (e : env) : outcome :=
  finish (script argv e state0).

(** The events that the loop delivers: the [i]-th outstanding timer fires, or
    child [p] exits (whatever the reason: normal exit, signal, crash). *)
Inductive event : Type :=
| TimerFires (i : nat)
| ChildExits (p : pid).

(** One turn of the loop.  An event that is not pending ([None]) cannot
    happen.  A fired timer is gone; an exited child is gone, and the listeners
    that were registered on it run once, in order. *)
Definition dispatch (e : env) (ev : event) (s : state) : option outcome :=
  match ev with
  | TimerFires i =>
      match timers s !! i with
      | Some _ =>
          Some (finish
            (checkForUpdates e
               (record TimerFired (set_timers (delete i) s))))
      | None => None
      end
  | ChildExits p =>
      match children s !! p with
      | Some ls =>
          Some (finish
            (forEach run_listener ls e
               (record (ChildExited p) (set_children (delete p) s))))
      | None => None
      end
  end.

(** The states in which the supervisor can be found waiting in the loop. *)
Inductive reachable : state -> Prop :=
| reachable_main (argv : list string) (e : env) (s : state) :
    main argv e = Running s -> reachable s
| reachable_dispatch (e : env) (ev : event) (s s' : state) :
    reachable s -> dispatch e ev s = Some (Running s') -> reachable s'.

(** A sequence of turns, each with the answers of the world during it. *)
Fixpoint run (turns : list (env * event)) (s : state) : option outcome :=
  match turns with
  | [] => Some (Running s)
  | (e, ev) :: turns' =>
      match dispatch e ev s with
      | Some (Running s') => run turns' s'
      | other => match turns' with [] => other | _ => None end
      end
  end.

(** ** Auxiliary definitions for the statements *)

(** The state after [scheduleUpdateCheck] has armed a timer with [delay]. *)
Definition scheduled (delay : JS.number) (s : state) : state :=
  set_timers (fun ts => ts ++ [delay])
    (record (SetTimeout delay) (record (Log (Scheduling delay)) s)).

(** The delay that [scheduleUpdateCheck] computes. *)
Definition nextDelay (c : config) (now : Z * Z) : JS.number :=
  match time c with
  | Some t => timeOfDayDelay t now
  | None => intervalDelay c
  end.

(** The delay as the specification words it: when now is past the target,
    12 is taken off the target hour, and the delay is the difference of the
    hours times 3,600,000 plus the difference of the minutes times 60,000. *)
Definition specifiedTimeOfDayDelay (t : time_of_day) (now : Z * Z) : JS.number :=
  let now_hours := JS.Num (fst now) in
  let now_minutes := JS.Num (snd now) in
  let target_hours :=
    if JS.gt now_hours (hours t) ||
       (JS.strict_eq now_hours (hours t) && JS.gt now_minutes (minutes t))
    then JS.sub (hours t) (JS.Num 12)
    else hours t in
  JS.add
    (JS.mul (JS.sub target_hours now_hours) (JS.Num 3600000))
    (JS.mul (JS.sub (minutes t) now_minutes) (JS.Num 60000)).


(** The second test of [validateConfiguration]: a time of day, or else an
    integer frequency of at least one minute. *)
Definition validSchedule (c : config) : bool :=
  bool_decide (is_Some (time c)) ||
  (JS.isInteger (frequency c) && negb (JS.lt (frequency c) (JS.Num 1))).

(** The state in which [validateConfiguration] leaves [conf]: the path is
    derived from the repository URI when only the latter is there. *)
Definition derivePath (c : config) : config :=
  if negb (JS.truthy (path c)) && JS.truthy (repository c)
  then set_path (Some (JS.basename (default "" (repository c)) ".git")) c
  else c.

(** A decimal digit, and its value. *)
Definition is_digit (c : ascii) : bool :=
  let n := nat_of_ascii c in Nat.leb 48 n && Nat.leb n 57.

Definition digit (c : ascii) : Z := Z.of_nat (nat_of_ascii c) - 48.

(** An [HHMM] operand: exactly four decimal digits. *)
Definition isHHMM (s : string) : bool :=
  match s with
  | String a (String b (String c (String d EmptyString))) =>
      is_digit a && is_digit b && is_digit c && is_digit d
  | _ => false
  end.

(** The number that a string of decimal digits denotes. *)
Fixpoint decimal (acc : Z) (s : string) : Z :=
  match s with
  | EmptyString => acc
  | String c s' => decimal (10 * acc + digit c) s'
  end.

(** A world in which every call succeeds: [rev-parse] prints [head] for
    [HEAD] and [upstream] for [HEAD@{u}], the path is a directory, and the
    clock shows [now].  Used for the worked examples. *)
Definition world (now : Z * Z) (head upstream : string) : env := {|
  git := fun argv =>
    if bool_decide (argv = ["rev-parse"; "HEAD"]) then Returns head
    else if bool_decide (argv = ["rev-parse"; "HEAD@{u}"]) then Returns upstream
    else Returns "";
  statSync := fun _ => Returns true;
  chdir_existing := Returns tt;
  chdir_cloned := Returns tt;
  spawn := fun _ _ => Returns tt;
  kill := fun _ _ => Returns tt;
  clock := now;
|}.

(** The state in which a run of script code ends. *)
Definition state_of {A : Type} (r : result A) : state :=
  match r with
  | Ok _ s => s
  | Exit _ s => s
  | Throw _ s => s
  end.

Definition final (o : outcome) : state :=
  match o with
  | Running s => s
  | Exited _ s => s
  | Crashed s => s
  end.

(** Every way in which a run of script code can end: the top level, or a
    turn of the loop from a reachable state. *)
Inductive occurs : outcome -> Prop :=
| occurs_main (argv : list string) (e : env) : occurs (main argv e)
| occurs_dispatch (e : env) (ev : event) (s : state) (o : outcome) :
    reachable s -> dispatch e ev s = Some o -> occurs o.

(** The state after a successful [startCommand] with a command. *)
Definition started (cmd : command_spec) (s : state) : state :=
  {| conf := conf s;
     commandProcess := Some (spawned s);
     children := <[spawned s := [ClearHandle]]> (children s);
     spawned := S (spawned s);
     timers := timers s;
     history :=
       history s ++ [Spawn (spawned s) (name cmd) (args cmd) "inherit"] |}.

(** The state after [update] has registered its listener on child [p], and
    after it has signalled it. *)
Definition listening (p : pid) (s : state) : state :=
  set_children (alter (fun ls => ls ++ [ClearHandleAndUpdate]) p) s.

Definition signalled (p : pid) (s : state) : state :=
  record (Kill p (signal (conf s))) (listening p s).

Definition git_pull : action := ExecFileSync "git" ["pull"].

(** The children that are running after a history: spawned, and their exit
    not yet observed. *)
Definition running_after (live : gset pid) (a : action) : gset pid :=
  match a with
  | Spawn p _ _ _ => {[p]} ∪ live
  | ChildExited p => live ∖ {[p]}
  | _ => live
  end.

Definition running_from (live : gset pid) (h : list action) : gset pid :=
  foldl running_after live h.

Definition running (h : list action) : gset pid := running_from ∅ h.

(** No pull in the history was run while a child was running. *)
Definition pulls_undisturbed (h : list action) : Prop :=
  forall h1 h2 : list action, h = h1 ++ git_pull :: h2 -> running h1 = ∅.

(** The same, read along the history from a set of running children. *)
Fixpoint quiet_from (live : gset pid) (h : list action) : Prop :=
  match h with
  | [] => True
  | a :: h' => (a = git_pull -> live = ∅) /\ quiet_from (running_after live a) h'
  end.

Definition is_SetTimeout (a : action) : bool :=
  match a with SetTimeout _ => true | _ => false end.

Definition is_TimerFired (a : action) : bool :=
  match a with TimerFired => true | _ => false end.

Definition is_ChildExited (a : action) : bool :=
  match a with ChildExited _ => true | _ => false end.

(** Starting or signalling a process. *)
Definition touches_process (a : action) : bool :=
  match a with Spawn _ _ _ _ | Kill _ _ => true | _ => false end.

(** The actions of the setup phase: output, the file system and git. *)
Definition is_setup (a : action) : bool :=
  match a with
  | Log _ | LogError _ | StatSync _ | Chdir _ | ExecFileSync _ _ => true
  | _ => false
  end.

Fixpoint count (f : action -> bool) (h : list action) : nat :=
  match h with
  | [] => 0%nat
  | a :: h' => ((if f a then 1 else 0) + count f h')%nat
  end.

(** The two phases in which the loop finds the supervisor.  Idle: one timer
    is armed, and the child, if there is one, carries the listener of
    [startCommand] only.  Awaiting the exit of [p]: [update] has added its
    listener to [p], and no timer is armed. *)
Definition idle (s : state) : Prop :=
  (exists d, timers s = [d]) /\
  ((commandProcess s = None /\ children s = ∅) \/
   (exists p, commandProcess s = Some p /\ children s = {[p := [ClearHandle]]})).

Definition awaiting_exit (p : pid) (s : state) : Prop :=
  timers s = [] /\
  commandProcess s = Some p /\
  children s = {[p := [ClearHandle; ClearHandleAndUpdate]]}.

(** What holds of every state in which the loop finds the supervisor. *)
Record consistent (s : state) : Prop := {
  consistent_phase : idle s \/ exists p, awaiting_exit p s;
  consistent_command : forall p, commandProcess s = Some p -> is_Some (command (conf s));
  consistent_running : running (history s) = dom (children s);
  consistent_quiet : quiet_from ∅ (history s);
  consistent_timers :
    count is_SetTimeout (history s)
      = (count is_TimerFired (history s) + length (timers s))%nat;
  consistent_no_command :
    command (conf s) = None -> count touches_process (history s) = 0%nat;
  consistent_fresh : forall p, p ∈ dom (children s) -> (p < spawned s)%nat;
  consistent_signalled :
    forall p sig, last (history s) = Some (Kill p sig) -> awaiting_exit p s;
  consistent_armed :
    forall d, timers s = [d] ->
    exists h tl, history s = h ++ SetTimeout d :: tl /\
                 forallb is_ChildExited tl = true;
}.

(** [s'] differs from [s] in the configuration and in some more actions at
    the end of the history, all of them accepted by [allowed]. *)
Definition extends (allowed : action -> bool) (s s' : state) : Prop :=
  commandProcess s' = commandProcess s /\
  children s' = children s /\
  spawned s' = spawned s /\
  timers s' = timers s /\
  exists t, history s' = history s ++ t /\ forallb allowed t = true.

(** Script code that, however it ends, only does that to the state. *)
Definition framed (allowed : action -> bool) {A : Type} (m : M A) : Prop :=
  forall (e : env) (s : state), extends allowed s (state_of (m e s)).

(** A command line with a supervised command, and the state in which the
    top level leaves the supervisor in a world where everything succeeds. *)
Definition sample_argv : list string :=
  ["node"; "git-auto-updater"; "--path"; "repo"; "--time"; "0200";
   "--"; "server"; "--port"; "80"].

Definition sample_boot : state :=
  final (main sample_argv (world (3, 0) "1111" "1111")).

(** The same, one turn later: the timer has fired and the upstream revision
    was a new one. *)
Definition sample_signalled : state :=
  match dispatch (world (2, 0) "1111" "2222") (TimerFires 0) sample_boot with
  | Some o => final o
  | None => sample_boot
  end.

(** A command line without a command, and the state after its top level. *)
Definition bare_argv : list string :=
  ["node"; "git-auto-updater"; "--repository"; "https://example.com/x.git";
   "--frequency"; "60"].

Definition bare_boot : state :=
  final (main bare_argv (world (3, 0) "1111" "1111")).

(** The state after [checkForUpdates] has fetched, read and logged the two
    revisions. *)
Definition checked (head_out upstream_out : string) (s : state) : state :=
  record (Log (Line ("Latest revision: " +:+ JS.slice0 40 upstream_out)))
    (record (Log (Line ("Current revision: " +:+ JS.slice0 40 head_out)))
       (record (ExecFileSync "git" ["rev-parse"; "HEAD@{u}"])
          (record (ExecFileSync "git" ["rev-parse"; "HEAD"])
             (record (ExecFileSync "git" ["fetch"])
                (record (Log (Line "Checking for update...")) s))))).

(** The state in which a timer has just fired. *)
Definition fired (i : nat) (s : state) : state :=
  record TimerFired (set_timers (delete i) s).

(** ** The interval-only revision of the script

    [lib/git-auto-updater.js] is the same script before the time-of-day
    option: no [--time], a repeating [setInterval] in place of the one-shot
    timer, and four functions that differ.  They are embedded here next to
    the ones above, over the same state. *)

Module Lib.

(** Both the repository URI and the path are required. *)
Definition validateConfiguration : M bool :=
  let* c := gets conf in
  when (negb (JS.truthy (path c)) && JS.truthy (repository c))
    (modify (set_conf
       (set_path (Some (JS.basename (default "" (repository c)) ".git"))))) >>
  let* c := gets conf in
  if negb (JS.truthy (repository c)) || negb (JS.truthy (path c)) then
    ret false
  else if negb (JS.isInteger (frequency c)) ||
          JS.lt (frequency c) (JS.Num 1) then
    ret false
  else
    ret true.

(** The closure that clears the handle is handed to [ChildProcess.spawn] as
    a fourth argument.  [spawn] takes a command, arguments and options: the
    closure is not registered on anything and never runs. *)
Definition startCommand : M unit :=
  let* c := gets conf in
  match command c with
  | Some cmd =>
      ask (fun e => spawn e (name cmd) (args cmd)) >>
      let* p := gets spawned in
      emit (Spawn p (name cmd) (args cmd) "inherit") >>
      modify (set_spawned (S p)) >>
      modify (set_children (insert p [])) >>
      modify (set_commandProcess (Some p))
  | None => ret tt
  end.

Definition update : M unit :=
  let* handle := gets commandProcess in
  match handle with
  | Some p =>
      on_exit p ClearHandleAndUpdate >>
      let* c := gets conf in
      ask (fun e => kill e p (signal c)) >>
      emit (Kill p (signal c))
  | None =>
      execFileSync_git [Some "pull"] >>
      console_log (Line "Updated.") >>
      startCommand
  end.

Definition checkForUpdates : M unit :=
  console_log (Line "Checking for update...") >>
  execFileSync_git [Some "fetch"] >>
  let* head_out := execFileSync_git [Some "rev-parse"; Some "HEAD"] in
  let currentRev := JS.slice0 40 head_out in
  let* upstream_out := execFileSync_git [Some "rev-parse"; Some "HEAD@{u}"] in
  let latestRev := JS.slice0 40 upstream_out in
  console_log (Line ("Current revision: " +:+ currentRev)) >>
  console_log (Line ("Latest revision: " +:+ latestRev)) >>
  when (negb (String.eqb currentRev latestRev))
    (console_log (Line "Updating...") >>
     update).

Definition run_listener (l : listener) : M unit :=
  match l with
  | ClearHandle => modify (set_commandProcess None)
  | ClearHandleAndUpdate => modify (set_commandProcess None) >> update
  end.

(** [setInterval(checkForUpdates, conf.frequency * 60 * 1000)]. *)
Definition setInterval : M unit :=
  let* c := gets conf in
  emit (SetInterval (intervalDelay c)) >>
  modify (set_timers (fun ts => ts ++ [intervalDelay c])).

(** The last two statements of the top level. *)
Definition start : M unit :=
  startCommand >>
  setInterval.

Inductive event : Type :=
| IntervalFires (i : nat)
| ChildExits (p : pid).

(** One turn of the loop: an interval timer stays armed when it fires. *)
Definition dispatch (e : env) (ev : event) (s : state) : option outcome :=
  match ev with
  | IntervalFires i =>
      match timers s !! i with
      | Some _ => Some (finish (checkForUpdates e (record TimerFired s)))
      | None => None
      end
  | ChildExits p =>
      match children s !! p with
      | Some ls =>
          Some (finish
            (forEach run_listener ls e
               (record (ChildExited p) (set_children (delete p) s))))
      | None => None
      end
  end.

Fixpoint run (turns : list (env * event)) (s : state) : option outcome :=
  match turns with
  | [] => Some (Running s)
  | (e, ev) :: turns' =>
      match dispatch e ev s with
      | Some (Running s') => run turns' s'
      | other => match turns' with [] => other | _ => None end
      end
  end.

(** The top level of this revision.  The usage text has no line for a time
    of day, the [switch] has no case for it, and the [catch] block clones
    without asking whether a repository URI is there. *)
Definition usage : list string :=
  [ "usage: git-auto-updater [options] [-- [command]]";
    "";
    "Periodically checks a git repository for updates and runs a command";
    "between updates.";
    "";
    "options:";
    "  -h, --help          print this message";
    "  -r, --repository    git repository URI";
    "  -b, --branch        git branch (Default: master)";
    "  -p, --path          local clone path (Default: repository name)";
    "  -f, --frequency     update check frequency, in minutes (Default: 1440)";
    "  -s, --signal        signal to terminate command (Default: SIGINT)";
    "  --                  stop processing command line arguments" ].

Definition printUsage : M unit :=
  forEach (fun line => console_log (Line line)) usage.

Fixpoint parseLoop (buildingCommand : bool) (args : list string) : M unit :=
  match args with
  | [] => ret tt
  | arg :: rest =>
      let operand := head rest in
      let next :=
        match rest with
        | [] => ret tt
        | _ :: rest' => parseLoop false rest'
        end in
      if buildingCommand then
        modify (set_conf (buildCommand arg)) >> parseLoop true rest
      else if is_one_of arg ["-h"; "--help"] then
        printUsage >> process_exit 0
      else if is_one_of arg ["-r"; "--repository"] then
        modify (set_conf (set_repository operand)) >> next
      else if is_one_of arg ["-b"; "--branch"] then
        modify (set_conf (set_branch operand)) >> next
      else if is_one_of arg ["-p"; "--path"] then
        modify (set_conf (set_path operand)) >> next
      else if is_one_of arg ["-f"; "--frequency"] then
        modify (set_conf (set_frequency (JS.parseInt operand))) >> next
      else if is_one_of arg ["-s"; "--signal"] then
        modify (set_conf (set_signal operand)) >> next
      else if is_one_of arg ["--"] then
        parseLoop true rest
      else
        parseLoop false rest
  end.

Definition parseArguments (argv : list string) : M unit :=
  parseLoop false (tail argv).

Definition prepareWorkingTree : M unit :=
  let* c := gets conf in
  try_catch
    (emit (StatSync (path c)) >>
     let* isDirectory := ask (fun e => statSync e (path c)) in
     when (negb isDirectory)
       (console_error "Path exists, but is not a directory. Aborting." >>
        process_exit 1) >>
     emit (Chdir (path c)) >>
     ask chdir_existing >>
     execFileSync_git [Some "fetch"] >>
     try_catch
       (execFileSync_git [Some "checkout"; branch c] >> ret tt)
       (fun _ =>
          execFileSync_git
            [Some "checkout"; Some "-t";
             Some ("origin/" +:+ default "undefined" (branch c))] >> ret tt) >>
     execFileSync_git [Some "pull"] >> ret tt)
    (fun code =>
       when (negb (bool_decide (code = Some "ENOENT")))
         (console_error "Encountered an error accessing path" >>
          process_exit 1) >>
       execFileSync_git
         [Some "clone"; repository c; path c; Some "--branch"; branch c] >>
       emit (Chdir (path c)) >>
       ask chdir_cloned).

(** [conf] has no time of day in this revision, and the echo of the
    configuration always ends with the frequency: [ConfigEcho] of a
    configuration without a time of day. *)
Definition setUp (argv : list string) : M unit :=
  parseArguments argv >>
  let* valid := validateConfiguration in
  when (negb valid)
    (console_log (Line "Not enough or invalid arguments") >>
     printUsage >>
     process_exit 1) >>
  let* c := gets conf in
  console_log (ConfigEcho c) >>
  match command c with
  | Some cmd => console_log (Line ("command: " +:+ commandString cmd))
  | None => ret tt
  end >>
  prepareWorkingTree.

Definition script (argv : list string) : M unit :=
  setUp argv >>
  start.

Definition main (argv : list string) (e : env) : outcome :=
  finish (script argv e state0).

(** A configuration with a repository, a path and the command [server], and
    the state in which [start] leaves the supervisor. *)
Definition sample_conf : config :=
  set_command (Some {| name := "server"; args := [] |})
    (set_path (Some "x")
       (set_repository (Some "https://example.com/x.git") conf0)).

Definition sample_boot : state :=
  state_of (start (world (0, 0) "1111" "1111")
              (set_conf (fun _ => sample_conf) state0)).

End Lib.

(** ** Definitions for the properties of the rest of the script *)

(** The state after [lines] have been printed with [console.log]. *)
Definition printed (lines : list string) (s : state) : state :=
  {| conf := conf s; commandProcess := commandProcess s;
     children := children s; spawned := spawned s; timers := timers s;
     history := history s ++ map (fun line => Log (Line line)) lines |}.

(** The options of the command line that take an operand, as the [switch]
    of [parseArguments] lists them, each with its two spellings and with the
    assignment its case makes. *)
Inductive operand_option : Type :=
| OptRepository
| OptBranch
| OptPath
| OptFrequency
| OptTime
| OptSignal.

Definition spelling (o : operand_option) (long : bool) : string :=
  match o, long with
  | OptRepository, false => "-r"
  | OptRepository, true => "--repository"
  | OptBranch, false => "-b"
  | OptBranch, true => "--branch"
  | OptPath, false => "-p"
  | OptPath, true => "--path"
  | OptFrequency, false => "-f"
  | OptFrequency, true => "--frequency"
  | OptTime, false => "-t"
  | OptTime, true => "--time"
  | OptSignal, false => "-s"
  | OptSignal, true => "--signal"
  end.

Definition assign (o : operand_option) (operand : option string)
    (c : config) : config :=
  match o with
  | OptRepository => set_repository operand c
  | OptBranch => set_branch operand c
  | OptPath => set_path operand c
  | OptFrequency => set_frequency (JS.parseInt operand) c
  | OptTime => set_time (Some (parseTime operand)) c
  | OptSignal => set_signal operand c
  end.

(** A well-formed run of options: each is spelled short or long and is
    followed by its operand. *)
Definition spelled_options (opts : list (operand_option * bool * string))
    : list string :=
  flat_map (fun '(o, long, v) => [spelling o long; v]) opts.

Definition assign_all (opts : list (operand_option * bool * string))
    (c : config) : config :=
  fold_left (fun c '(o, _, v) => assign o (Some v) c) opts c.

Definition is_help (arg : string) : bool := is_one_of arg ["-h"; "--help"].

(** The arguments that the [switch] of [parseArguments] knows. *)
Definition is_option (arg : string) : bool :=
  is_one_of arg
    ["-h"; "--help"; "-r"; "--repository"; "-b"; "--branch"; "-p"; "--path";
     "-f"; "--frequency"; "-t"; "--time"; "-s"; "--signal"; "--"].

(** A run of words that the loop of [parseArguments] reads as options and
    leaves expecting another option: words that the [switch] does not know,
    which it skips, and options that take an operand, each with the word
    after it, whatever that word is.  No word of the run is read as a help
    flag or as [--]. *)
Inductive option_words : list string -> Prop :=
| option_words_nil : option_words []
| option_words_unknown (x : string) (l : list string) :
    is_option x = false -> option_words l -> option_words (x :: l)
| option_words_operand (o : operand_option) (long : bool) (v : string)
    (l : list string) :
    option_words l -> option_words (spelling o long :: v :: l).

(** The [try] block of the top level and its [catch] block, for a
    configuration [c]: [prepareWorkingTree] is the first guarded by the
    second. *)
Definition probeWorkingTree (c : config) : M unit :=
  emit (StatSync (path c)) >>
  let* isDirectory := ask (fun e => statSync e (path c)) in
  when (negb isDirectory)
    (console_error "Path exists, but is not a directory. Aborting." >>
     process_exit 1) >>
  emit (Chdir (path c)) >>
  ask chdir_existing >>
  execFileSync_git [Some "fetch"] >>
  try_catch
    (execFileSync_git [Some "checkout"; branch c] >> ret tt)
    (fun _ =>
       execFileSync_git
         [Some "checkout"; Some "-t";
          Some ("origin/" +:+ default "undefined" (branch c))] >> ret tt) >>
  execFileSync_git [Some "pull"] >> ret tt.

Definition cloneWorkingTree (c : config) (code : option string) : M unit :=
  when (negb (bool_decide (code = Some "ENOENT")))
    (console_error "Encountered an error accessing path" >>
     process_exit 1) >>
  when (negb (JS.truthy (repository c)))
    (console_error "Failed to pull repository and no repostiory URI given." >>
     process_exit 1) >>
  execFileSync_git
    [Some "clone"; repository c; path c; Some "--branch"; branch c] >>
  emit (Chdir (path c)) >>
  ask chdir_cloned.

(** The minutes by which the clock is past the time of day [t]. *)
Definition minutes_past (th tm nh nm : Z) : Z :=
  (nh * 60 + nm) - (th * 60 + tm).

(** Script code that keeps a property of the state, however it ends. *)
Definition keeps (P : state -> Prop) {A : Type} (m : M A) : Prop :=
  forall (e : env) (s : state), P s -> P (state_of (m e s)).

(** A property of the state that the steps of [startCommand] and of the
    signalling branch of [update] cannot break: recording an action and
    changing the table of children, the handle or the count of children. *)
Record steady (P : state -> Prop) : Prop := {
  steady_record : forall a s, P s -> P (record a s);
  steady_children : forall f s, P s -> P (set_children f s);
  steady_commandProcess : forall v s, P s -> P (set_commandProcess v s);
  steady_spawned : forall n s, P s -> P (set_spawned n s);
}.

(** A property that, in addition, survives arming a timer with the
    configured delay and removing a timer. *)
Record stable (P : state -> Prop) : Prop := {
  stable_steady : steady P;
  stable_arm :
    forall now s,
      P s -> P (set_timers (fun ts => ts ++ [nextDelay (conf s) now]) s);
  stable_fire : forall i s, P s -> P (set_timers (delete i) s);
}.

(** The verdict of [validateConfiguration]. *)
Definition validConfiguration (c : config) : bool :=
  (JS.truthy (repository c) || JS.truthy (path c)) && validSchedule c.

(** Every armed timer carries a delay computed from the configuration. *)
Definition configured_delays (s : state) : Prop :=
  Forall (fun d => exists now, d = nextDelay (conf s) now) (timers s).

(** The interval-only sample after the interval has fired twice with a new
    upstream revision while child 0 has not exited. *)
Definition lib_overdue : state :=
  match
    Lib.run [(world (0, 0) "1111" "2222", Lib.IntervalFires 0);
             (world (0, 0) "1111" "2222", Lib.IntervalFires 0)]
      Lib.sample_boot
  with
  | Some o => final o
  | None => Lib.sample_boot
  end.

(** A world in which the path does not exist and everything else succeeds,
    one in which the path is a plain file, and one without network, where
    every git command fails. *)
Definition fresh_world (now : Z * Z) : env := {|
  git := fun _ => Returns "";
  statSync := fun _ => Throws (Some "ENOENT");
  chdir_existing := Returns tt;
  chdir_cloned := Returns tt;
  spawn := fun _ _ => Returns tt;
  kill := fun _ _ => Returns tt;
  clock := now;
|}.

Definition file_world : env := {|
  git := fun _ => Returns "";
  statSync := fun _ => Returns false;
  chdir_existing := Returns tt;
  chdir_cloned := Returns tt;
  spawn := fun _ _ => Returns tt;
  kill := fun _ _ => Returns tt;
  clock := (0, 0);
|}.

Definition offline_world : env := {|
  git := fun _ => Throws None;
  statSync := fun _ => Returns true;
  chdir_existing := Returns tt;
  chdir_cloned := Returns tt;
  spawn := fun _ _ => Returns tt;
  kill := fun _ _ => Returns tt;
  clock := (0, 0);
|}.

(** A world in which the [git] executable itself is not found. *)
Definition gitless_world : env := {|
  git := fun _ => Throws (Some "ENOENT");
  statSync := fun _ => Returns true;
  chdir_existing := Returns tt;
  chdir_cloned := Returns tt;
  spawn := fun _ _ => Returns tt;
  kill := fun _ _ => Returns tt;
  clock := (0, 0);
|}.

(** The command that the words after [--] make up, if there is one. *)
Definition command_of (words : list string) : option command_spec :=
  match words with
  | [] => None
  | first :: more => Some {| name := first; args := more |}
  end.

(** What [parseArguments] makes of a command line of options with their
    operands, followed by [--] and the words of a command. *)
Definition parsed (opts : list (operand_option * bool * string))
    (words : list string) : config :=
  match command_of words with
  | Some cmd => set_command (Some cmd) (assign_all opts conf0)
  | None => assign_all opts conf0
  end.

(** The lines that the top level prints for an accepted configuration. *)
Definition echo (c : config) : list action :=
  Log (ConfigEcho c) ::
  match command c with
  | Some cmd => [Log (Line ("command: " +:+ commandString cmd))]
  | None => []
  end.

(** ** What the script functions compute *)

(** Unfolds the monad so that a run of script code reduces by computation. *)
Ltac js_unfold :=
  unfold when, console_log, console_error, setTimeout, on_exit, emit, ask,
    process_exit, throw, try_catch, gets, modify, bind, ret in *.

Lemma scheduleUpdateCheck_eq (e : env) (s : state) :
  scheduleUpdateCheck e s = Ok tt (scheduled (nextDelay (conf s) (clock e)) s).
Proof.
  unfold scheduleUpdateCheck, nextDelay. js_unfold.
  destruct (time (conf s)); reflexivity.
Qed.

(** *** Time-of-day arithmetic *)

(** C2, as worded, fails: with the check at 02:00 and the clock at 03:00 the
    script waits 11 hours, whereas taking 12 off the target hour gives minus
    13 hours. *)
Lemma timeOfDayDelay_not_as_specified :
  let t := {| hours := JS.Num 2; minutes := JS.Num 0 |} in
  timeOfDayDelay t (3, 0) = JS.Num 39600000 /\
  specifiedTimeOfDayDelay t (3, 0) = JS.Num (-46800000) /\
  timeOfDayDelay t (3, 0) <> specifiedTimeOfDayDelay t (3, 0).
Proof. repeat split. discriminate. Qed.

(** C2, amended: when now is past the target (current hour greater than the
    target hour, or equal hours and current minute greater than the target
    minute), 12 is subtracted from the current hour, not from the target
    hour; the delay is then (target hour minus that hour) times 3,600,000 ms
    plus (target minute minus current minute) times 60,000 ms, and it is the
    delay with which [scheduleUpdateCheck] arms the timer. *)
Theorem timeOfDayDelay_shifts_current_hour (th tm nh nm : Z) :
  let past := (th <? nh) || ((tm <? nm) && (nh =? th)) in
  let shifted := if past then nh - 12 else nh in
  let t := {| hours := JS.Num th; minutes := JS.Num tm |} in
  timeOfDayDelay t (nh, nm)
    = JS.Num ((th - shifted) * 3600000 + (tm - nm) * 60000) /\
  forall (e : env) (s : state),
    scheduleUpdateCheck e (set_conf (set_time (Some t)) s)
      = Ok tt (scheduled (timeOfDayDelay t (clock e))
                 (set_conf (set_time (Some t)) s)).
Proof.
  intros past shifted t. split.
  - unfold timeOfDayDelay, shifted, past, t; simpl.
    destruct ((th <? nh) || ((tm <? nm) && (nh =? th))); simpl;
      f_equal; lia.
  - intros e s. rewrite scheduleUpdateCheck_eq. reflexivity.
Qed.

(** *** Validation of the configuration *)

Lemma validateConfiguration_eq (e : env) (s : state) :
  validateConfiguration e s
    = Ok ((JS.truthy (repository (conf s)) || JS.truthy (path (conf s)))
          && validSchedule (conf s))
         (set_conf derivePath s).
Proof.
  unfold validateConfiguration, validSchedule, derivePath. js_unfold.
  destruct s as [c h ch n ts hs]; destruct c as [r b p f t sg cmd]; simpl.
  unfold set_conf; simpl.
  destruct (JS.truthy p) eqn:Hp, (JS.truthy r) eqn:Hr; simpl;
    rewrite ?Hp, ?Hr; simpl;
    destruct (bool_decide (is_Some t)); simpl;
    destruct f as [y|]; simpl; try destruct (1 <? y); try destruct (y <? 1);
    reflexivity.
Qed.

(** The first test of [validateConfiguration] in the revision with the time
    of day: when neither a repository URI nor a path is given (absent, or
    the empty string, which the script cannot tell from absent), it returns
    false and the program prints the usage and exits with status 1; when one
    of the two is given the first test passes, and the verdict is that of
    the schedule test alone. *)
Lemma validateConfiguration_needs_repository_or_path (e : env) (s : state) :
  (JS.truthy (repository (conf s)) = false ->
   JS.truthy (path (conf s)) = false ->
   validateConfiguration e s = Ok false s /\
   forall argv : list string,
     parseArguments argv e state0 = Ok tt s ->
     exists s', main argv e = Exited 1 s' /\
       history s' = history s ++
         Log (Line "Not enough or invalid arguments")
           :: map (fun line => Log (Line line)) usage) /\
  (JS.truthy (repository (conf s)) = true \/
   JS.truthy (path (conf s)) = true ->
   validateConfiguration e s
     = Ok (validSchedule (conf s)) (set_conf derivePath s)).
Proof.
  split.
  - intros Hr Hp.
    assert (Hv : validateConfiguration e s = Ok false s).
    { rewrite validateConfiguration_eq, Hr, Hp. simpl.
      unfold set_conf, derivePath. rewrite Hr, Hp. simpl.
      destruct s; reflexivity. }
    split; [exact Hv|].
    intros argv Hparse. unfold main, script.
    unfold bind at 1. unfold setUp.
    unfold bind at 1. rewrite Hparse.
    unfold bind at 1. rewrite Hv. simpl.
    simpl. eexists; split; [reflexivity|]. simpl.
    repeat rewrite <- app_assoc. reflexivity.
  - intros Hone. rewrite validateConfiguration_eq.
    destruct Hone as [-> | ->]; simpl; [reflexivity|].
    rewrite orb_true_r. reflexivity.
Qed.

(** With no option at all the program exits with status 1. *)
Lemma validateConfiguration_needs_repository_or_path_witness :
  exists s' : state,
    main ["node"; "git-auto-updater"] (world (0, 0) "" "") = Exited 1 s'.
Proof.
  destruct (validateConfiguration_needs_repository_or_path
              (world (0, 0) "" "") state0) as [H _].
  destruct (H eq_refl eq_refl) as [_ Hmain].
  destruct (Hmain ["node"; "git-auto-updater"] eq_refl) as [s' [Hs' _]].
  exists s'. exact Hs'.
Defined.

(** *** One check with nothing to update *)

Lemma execFileSync_git_eq (l : list string) (e : env) (s : state) :
  execFileSync_git (map Some l) e s
    = match git e l with
      | Returns out => Ok out (record (ExecFileSync "git" l) s)
      | Throws code => Throw code (record (ExecFileSync "git" l) s)
      end.
Proof.
  unfold execFileSync_git. cbv zeta.
  assert (Hl : map (default "undefined") (map Some l) = l).
  { induction l as [|x l IH]; simpl; [reflexivity|]. rewrite IH. reflexivity. }
  rewrite Hl. js_unfold. reflexivity.
Qed.

(** C4: when the first 40 characters of the two [rev-parse] outputs are the
    same, [checkForUpdates] fetches, reads the two revisions, logs them and
    arms the next timer; it sends no signal, runs no pull and spawns nothing,
    and leaves the child and its handle as they are. *)
Theorem checkForUpdates_up_to_date
    (e : env) (s : state) (fetched head_out upstream_out : string) :
  git e ["fetch"] = Returns fetched ->
  git e ["rev-parse"; "HEAD"] = Returns head_out ->
  git e ["rev-parse"; "HEAD@{u}"] = Returns upstream_out ->
  JS.slice0 40 head_out = JS.slice0 40 upstream_out ->
  let delay := nextDelay (conf s) (clock e) in
  exists s',
    checkForUpdates e s = Ok tt s' /\
    history s' = history s ++
      [ Log (Line "Checking for update...");
        ExecFileSync "git" ["fetch"];
        ExecFileSync "git" ["rev-parse"; "HEAD"];
        ExecFileSync "git" ["rev-parse"; "HEAD@{u}"];
        Log (Line ("Current revision: " +:+ JS.slice0 40 head_out));
        Log (Line ("Latest revision: " +:+ JS.slice0 40 upstream_out));
        Log (Scheduling delay);
        SetTimeout delay ] /\
    timers s' = timers s ++ [delay] /\
    commandProcess s' = commandProcess s /\
    children s' = children s /\
    spawned s' = spawned s /\
    conf s' = conf s.
Proof.
  intros Hfetch Hhead Hupstream Hsame delay.
  unfold checkForUpdates.
  change [Some "fetch"] with (map Some ["fetch"]).
  change [Some "rev-parse"; Some "HEAD"] with (map Some ["rev-parse"; "HEAD"]).
  change [Some "rev-parse"; Some "HEAD@{u}"]
    with (map Some ["rev-parse"; "HEAD@{u}"]).
  unfold bind at 1. unfold console_log at 1, emit, modify.
  unfold bind at 1. rewrite execFileSync_git_eq, Hfetch.
  unfold bind at 1. rewrite execFileSync_git_eq, Hhead.
  unfold bind at 1. rewrite execFileSync_git_eq, Hupstream.
  rewrite Hsame, String.eqb_refl. simpl negb. cbv iota.
  unfold bind at 1. unfold console_log at 1, emit, modify.
  unfold bind at 1. unfold console_log at 1, emit, modify.
  rewrite scheduleUpdateCheck_eq.
  eexists; split; [reflexivity|]. simpl.
  repeat rewrite <- app_assoc. simpl. repeat split; reflexivity.
Qed.

(** At 03:00, with both revisions equal, the check only re-arms the timer. *)
Lemma checkForUpdates_up_to_date_witness :
  exists s',
    checkForUpdates (world (3, 0) "4f2a" "4f2a") state0 = Ok tt s' /\
    timers s' = [JS.Num 86400000] /\
    children s' = ∅.
Proof.
  destruct (checkForUpdates_up_to_date (world (3, 0) "4f2a" "4f2a") state0
              "" "4f2a" "4f2a" eq_refl eq_refl eq_refl eq_refl)
    as (s' & Hrun & _ & Htimers & _ & Hchildren & _).
  exists s'. split; [exact Hrun|]. split; [exact Htimers|exact Hchildren].
Defined.

(** *** The [--time] operand *)

Lemma digit_value_of_digit (c : ascii) :
  is_digit c = true ->
  JS.digit_value c = Some (digit c) /\ 0 <= digit c <= 9.
Proof.
  unfold is_digit, JS.digit_value, digit. intros H.
  apply andb_true_iff in H as [H1 H2].
  apply Nat.leb_le in H1. apply Nat.leb_le in H2.
  assert (H48 : (48 <=? Z.of_nat (nat_of_ascii c)) = true)
    by (apply Z.leb_le; lia).
  assert (H57 : (Z.of_nat (nat_of_ascii c) <=? 57) = true)
    by (apply Z.leb_le; lia).
  rewrite H48, H57. simpl. split; [reflexivity|lia].
Qed.

Lemma digits_of_digit (c : ascii) (acc : option Z) (s : string) :
  is_digit c = true ->
  JS.digits 10 acc (String c s)
    = JS.digits 10 (Some (10 * default 0 acc + digit c)) s.
Proof.
  intros H. destruct (digit_value_of_digit c H) as [Hv Hr].
  simpl. rewrite Hv.
  assert (Hlt : (digit c <? 10) = true) by (apply Z.ltb_lt; lia).
  rewrite Hlt. reflexivity.
Qed.

(** A numeral that starts with two digits has no sign, no white space and no
    hexadecimal prefix to strip. *)
Lemma parseInt_two_digits (a b : ascii) (s : string) :
  is_digit a = true -> is_digit b = true ->
  JS.parseInt (Some (String a (String b s)))
    = match JS.digits 10 None (String a (String b s)) with
      | Some n => JS.Num (1 * n)
      | None => JS.NaN
      end.
Proof.
  intros Ha Hb.
  destruct a as [[] [] [] [] [] [] [] []]; try discriminate Ha;
    try reflexivity.
  destruct b as [[] [] [] [] [] [] [] []]; try discriminate Hb; reflexivity.
Qed.

Lemma parseInt_HHMM (s : string) :
  isHHMM s = true ->
  JS.parseInt (Some s) = JS.Num (decimal 0 s) /\ 0 <= decimal 0 s <= 9999.
Proof.
  destruct s as [|a [|b [|c [|d [|x s]]]]]; try discriminate.
  unfold isHHMM. intros H.
  apply andb_true_iff in H as [H Hd].
  apply andb_true_iff in H as [H Hc].
  apply andb_true_iff in H as [Ha Hb].
  rewrite parseInt_two_digits by assumption.
  rewrite !digits_of_digit by assumption.
  destruct (digit_value_of_digit a Ha) as [_ Ra].
  destruct (digit_value_of_digit b Hb) as [_ Rb].
  destruct (digit_value_of_digit c Hc) as [_ Rc].
  destruct (digit_value_of_digit d Hd) as [_ Rd].
  cbn [JS.digits decimal default]. unfold id. split; [f_equal; lia|lia].
Qed.

(** C8: for an operand [HHMM] of four decimal digits, read as the number [n],
    [--time] stores the hour [min (floor (n / 100)) 23], which lies in 0..23,
    and the minute [min (n % 100) 59], which lies in 0..59, whatever the
    digits are. *)
Theorem parseTime_clamps (s : string) :
  isHHMM s = true ->
  let n := decimal 0 s in
  exists h m : Z,
    parseTime (Some s) = {| hours := JS.Num h; minutes := JS.Num m |} /\
    h = Z.min (n / 100) 23 /\ m = Z.min (Z.rem n 100) 59 /\
    0 <= h <= 23 /\ 0 <= m <= 59 /\
    forall e : env,
      parseArguments ["node"; "git-auto-updater"; "--time"; s] e state0
        = Ok tt (set_conf (set_time (Some (parseTime (Some s)))) state0).
Proof.
  intros H n. destruct (parseInt_HHMM s H) as [Hparse Hrange].
  fold n in Hparse, Hrange.
  exists (Z.min (n / 100) 23), (Z.min (Z.rem n 100) 59).
  split; [unfold parseTime; rewrite Hparse; reflexivity|].
  split; [reflexivity|]. split; [reflexivity|].
  assert (0 <= n / 100) by (apply Z.div_pos; lia).
  assert (0 <= Z.rem n 100) by (apply Z.rem_nonneg; lia).
  split; [lia|]. split; [lia|].
  intros e. reflexivity.
Qed.

(** [--time 2575] is stored as 23:59. *)
Lemma parseTime_clamps_witness :
  exists h m : Z,
    parseTime (Some "2575") = {| hours := JS.Num h; minutes := JS.Num m |} /\
    h = 23 /\ m = 59.
Proof.
  destruct (parseTime_clamps "2575" eq_refl) as (h & m & Hp & Hh & Hm & _).
  exists h, m. split; [exact Hp|]. split; [exact Hh|exact Hm].
Defined.

(** *** An operand of [--time] that is not a number *)

(** C10: there is an operand of [--time] that [Number.parseInt] turns into
    [NaN]; [parseArguments] then stores a time record with both fields [NaN],
    [validateConfiguration] returns true although the frequency on the same
    command line is unusable (without the time record it returns false), and
    the delay that [scheduleUpdateCheck] computes from the record is [NaN]
    whatever the clock shows. *)
Theorem unparsable_time_is_accepted :
  exists v : string,
    JS.parseInt (Some v) = JS.NaN /\
    forall e : env,
    exists s : state,
      parseArguments
        ["node"; "git-auto-updater"; "--path"; "repo";
         "--frequency"; "often"; "--time"; v] e state0 = Ok tt s /\
      time (conf s) = Some {| hours := JS.NaN; minutes := JS.NaN |} /\
      frequency (conf s) = JS.NaN /\
      validateConfiguration e s = Ok true s /\
      validateConfiguration e (set_conf (set_time None) s)
        = Ok false (set_conf (set_time None) s) /\
      nextDelay (conf s) (clock e) = JS.NaN /\
      scheduleUpdateCheck e s = Ok tt (scheduled JS.NaN s).
Proof.
  exists "soon". split; [reflexivity|].
  intros e. eexists. split; [vm_compute; reflexivity|].
  repeat split.
Qed.

(** ** Histories *)

Lemma running_from_app (live : gset pid) (h t : list action) :
  running_from live (h ++ t) = running_from (running_from live h) t.
Proof. unfold running_from. apply foldl_app. Qed.

Lemma quiet_from_app (live : gset pid) (h t : list action) :
  quiet_from live (h ++ t)
  <-> quiet_from live h /\ quiet_from (running_from live h) t.
Proof.
  revert live. induction h as [|a h IH]; intros live; simpl.
  - tauto.
  - rewrite IH. unfold running_from. simpl. tauto.
Qed.

Lemma count_app (f : action -> bool) (h t : list action) :
  count f (h ++ t) = (count f h + count f t)%nat.
Proof. induction h as [|a h IH]; simpl; [reflexivity|]. rewrite IH. lia. Qed.

Lemma quiet_from_undisturbed (h : list action) :
  quiet_from ∅ h <-> pulls_undisturbed h.
Proof.
  unfold pulls_undisturbed. split.
  - intros Hq h1 h2 ->. apply quiet_from_app in Hq as [_ Hq].
    simpl in Hq. destruct Hq as [Hq _]. apply Hq. reflexivity.
  - assert (Hgen : forall live t,
      (forall h1 h2, t = h1 ++ git_pull :: h2 -> running_from live h1 = ∅) ->
      quiet_from live t).
    { intros live t. revert live.
      induction t as [|a t IH]; intros live Hall; simpl; [exact I|]. split.
      - intros ->. apply (Hall [] t). reflexivity.
      - apply IH. intros h1 h2 ->. apply (Hall (a :: h1) h2). reflexivity. }
    apply Hgen.
Qed.

(** The actions of the setup phase start no child, arm no timer, and their
    pulls run before any child exists. *)
Lemma setup_actions (t : list action) (live : gset pid) :
  forallb is_setup t = true ->
  running_from live t = live /\
  count is_SetTimeout t = 0%nat /\
  count is_TimerFired t = 0%nat /\
  count touches_process t = 0%nat /\
  (live = ∅ -> quiet_from live t).
Proof.
  induction t as [|a t IH]; simpl; intros H.
  - repeat split; reflexivity.
  - apply andb_true_iff in H as [Ha Ht].
    destruct (IH Ht) as (IH1 & IH2 & IH3 & IH4 & IH5).
    destruct a; try discriminate Ha; simpl;
      unfold running_from in *; simpl; repeat split; auto.
Qed.

(** ** Script code that only extends the history *)

Section Frame.

Variable allowed : action -> bool.

Lemma extends_refl (s : state) : extends allowed s s.
Proof.
  repeat split. exists []. split; [symmetry; apply app_nil_r|reflexivity].
Qed.

Lemma extends_trans (s1 s2 s3 : state) :
  extends allowed s1 s2 -> extends allowed s2 s3 -> extends allowed s1 s3.
Proof.
  intros (H1 & H2 & H3 & H4 & t & Ht & Hall)
         (K1 & K2 & K3 & K4 & u & Hu & Hall').
  repeat split; try congruence.
  exists (t ++ u). split.
  - rewrite Hu, Ht, app_assoc. reflexivity.
  - rewrite forallb_app, Hall, Hall'. reflexivity.
Qed.

Lemma extends_set_conf (f : config -> config) (s : state) :
  extends allowed s (set_conf f s).
Proof.
  repeat split. exists []. split; [symmetry; apply app_nil_r|reflexivity].
Qed.

Lemma extends_record (a : action) (s : state) :
  allowed a = true -> extends allowed s (record a s).
Proof.
  intros Ha. repeat split. exists [a]. split; [reflexivity|].
  simpl. rewrite Ha. reflexivity.
Qed.

Lemma framed_ret {A : Type} (a : A) : framed allowed (ret a).
Proof. intros e s. apply extends_refl. Qed.

Lemma framed_bind {A B : Type} (m : M A) (k : A -> M B) :
  framed allowed m -> (forall a, framed allowed (k a)) ->
  framed allowed (bind m k).
Proof.
  intros Hm Hk e s. unfold bind. specialize (Hm e s).
  destruct (m e s) as [a s'|c s'|c s']; simpl in *; [|exact Hm|exact Hm].
  eapply extends_trans; [exact Hm|apply Hk].
Qed.

Lemma framed_try_catch {A : Type} (m : M A) (h : option string -> M A) :
  framed allowed m -> (forall c, framed allowed (h c)) ->
  framed allowed (try_catch m h).
Proof.
  intros Hm Hh e s. unfold try_catch. specialize (Hm e s).
  destruct (m e s) as [a s'|c s'|c s']; simpl in *; [exact Hm|exact Hm|].
  eapply extends_trans; [exact Hm|apply Hh].
Qed.

Lemma framed_gets {A : Type} (f : state -> A) : framed allowed (gets f).
Proof. intros e s. apply extends_refl. Qed.

Lemma framed_set_conf (f : config -> config) :
  framed allowed (modify (set_conf f)).
Proof. intros e s. apply extends_set_conf. Qed.

Lemma framed_emit (a : action) :
  allowed a = true -> framed allowed (emit a).
Proof. intros Ha e s. apply extends_record, Ha. Qed.

Lemma framed_ask {A : Type} (f : env -> answer A) : framed allowed (ask f).
Proof.
  intros e s. unfold ask. destruct (f e); apply extends_refl.
Qed.

Lemma framed_throw {A : Type} (c : option string) :
  framed allowed (@throw A c).
Proof. intros e s. apply extends_refl. Qed.

Lemma framed_process_exit {A : Type} (c : Z) :
  framed allowed (@process_exit A c).
Proof. intros e s. apply extends_refl. Qed.

Lemma framed_when (b : bool) (m : M unit) :
  framed allowed m -> framed allowed (when b m).
Proof. intros Hm. destruct b; [exact Hm|apply framed_ret]. Qed.

Lemma framed_forEach {A : Type} (f : A -> M unit) (l : list A) :
  (forall a, framed allowed (f a)) -> framed allowed (forEach f l).
Proof.
  intros Hf. induction l as [|a l IH]; simpl.
  - apply framed_ret.
  - apply framed_bind; [apply Hf|intros _; exact IH].
Qed.

End Frame.

Create HintDb frame.
#[local] Hint Resolve framed_ret framed_gets framed_set_conf framed_ask
  framed_throw framed_process_exit framed_when framed_forEach
  framed_try_catch : frame.

(** Closes [framed is_setup m] for straight-line script code. *)
Ltac frame :=
  repeat first
    [ assumption
    | match goal with H : forall _, framed _ _ |- _ => apply H end
    | apply framed_bind; [|intros ?]
    | apply framed_try_catch; [|intros ?]
    | apply framed_when
    | apply framed_forEach; intros ?
    | apply framed_emit; reflexivity
    | progress auto with frame
    | match goal with
      | |- framed _ (match ?x with _ => _ end) => destruct x
      | |- framed _ (if ?b then _ else _) => destruct b
      end ].

Lemma framed_execFileSync_git (argv : list (option string)) :
  framed is_setup (execFileSync_git argv).
Proof. unfold execFileSync_git. cbv zeta. frame. Qed.

#[local] Hint Resolve framed_execFileSync_git : frame.

Lemma framed_printUsage : framed is_setup printUsage.
Proof. unfold printUsage, console_log. frame. Qed.

#[local] Hint Resolve framed_printUsage : frame.

Lemma framed_parseLoop_cons (building : bool) (arg : string) (rest : list string) :
  (forall b, framed is_setup (parseLoop b rest)) ->
  framed is_setup
    match rest with [] => ret tt | _ :: rest' => parseLoop false rest' end ->
  framed is_setup (parseLoop building (arg :: rest)).
Proof.
  intros Hrest Hnext.
  change (parseLoop building (arg :: rest)) with
    (let operand := head rest in
     let next :=
       match rest with [] => ret tt | _ :: rest' => parseLoop false rest' end in
     if building then
       modify (set_conf (buildCommand arg)) >> parseLoop true rest
     else if is_one_of arg ["-h"; "--help"] then
       printUsage >> process_exit 0
     else if is_one_of arg ["-r"; "--repository"] then
       modify (set_conf (set_repository operand)) >> next
     else if is_one_of arg ["-b"; "--branch"] then
       modify (set_conf (set_branch operand)) >> next
     else if is_one_of arg ["-p"; "--path"] then
       modify (set_conf (set_path operand)) >> next
     else if is_one_of arg ["-f"; "--frequency"] then
       modify (set_conf (set_frequency (JS.parseInt operand))) >> next
     else if is_one_of arg ["-t"; "--time"] then
       modify (set_conf (set_time (Some (parseTime operand)))) >> next
     else if is_one_of arg ["-s"; "--signal"] then
       modify (set_conf (set_signal operand)) >> next
     else if is_one_of arg ["--"] then
       parseLoop true rest
     else
       parseLoop false rest).
  cbv zeta. frame.
Qed.

Lemma framed_parseLoop (args : list string) :
  (forall b, framed is_setup (parseLoop b args)) /\
  (forall x b, framed is_setup (parseLoop b (x :: args))).
Proof.
  induction args as [|a r [IH1 IH2]].
  - assert (H0 : forall b, framed is_setup (parseLoop b [])).
    { intros b. apply framed_ret. }
    split; [exact H0|].
    intros x b. apply framed_parseLoop_cons; [exact H0|apply framed_ret].
  - split; [intros b; apply IH2|].
    intros x b. apply framed_parseLoop_cons; [intros b'; apply IH2|apply IH1].
Qed.

Lemma framed_setUp (argv : list string) : framed is_setup (setUp argv).
Proof.
  unfold setUp, parseArguments, validateConfiguration, prepareWorkingTree,
    console_log, console_error.
  pose proof (fun b => proj1 (framed_parseLoop (tail argv)) b) as Hparse.
  frame.
Qed.

(** ** The handlers, case by case *)

Lemma startCommand_eq (e : env) (s : state) :
  startCommand e s
    = match command (conf s) with
      | Some cmd =>
          match spawn e (name cmd) (args cmd) with
          | Returns _ => Ok tt (started cmd s)
          | Throws code => Throw code s
          end
      | None => Ok tt s
      end.
Proof.
  unfold startCommand. js_unfold.
  destruct (command (conf s)) as [cmd|]; [|reflexivity].
  destruct (spawn e (name cmd) (args cmd)); [|reflexivity].
  unfold started, set_commandProcess, set_children, set_spawned, record; simpl.
  rewrite alter_insert_eq. reflexivity.
Qed.

Lemma update_eq (e : env) (s : state) :
  update e s
    = match commandProcess s with
      | Some p =>
          match kill e p (signal (conf s)) with
          | Returns _ => Ok tt (signalled p s)
          | Throws code => Throw code (listening p s)
          end
      | None =>
          match git e ["pull"] with
          | Returns _ =>
              (startCommand >> scheduleUpdateCheck) e
                (record (Log (Line "Updated.")) (record git_pull s))
          | Throws code => Throw code (record git_pull s)
          end
      end.
Proof.
  unfold update.
  change [Some "pull"] with (map Some ["pull"]).
  unfold bind at 1. unfold gets at 1.
  destruct (commandProcess s) as [p|].
  - js_unfold. simpl.
    destruct (kill e p (signal (conf s))); reflexivity.
  - unfold bind at 1. rewrite execFileSync_git_eq.
    destruct (git e ["pull"]); reflexivity.
Qed.

Lemma checkForUpdates_eq (e : env) (s : state) :
  checkForUpdates e s
    = let s1 := record (ExecFileSync "git" ["fetch"])
                  (record (Log (Line "Checking for update...")) s) in
      match git e ["fetch"] with
      | Throws code => Throw code s1
      | Returns _ =>
          let s2 := record (ExecFileSync "git" ["rev-parse"; "HEAD"]) s1 in
          match git e ["rev-parse"; "HEAD"] with
          | Throws code => Throw code s2
          | Returns head_out =>
              let s3 :=
                record (ExecFileSync "git" ["rev-parse"; "HEAD@{u}"]) s2 in
              match git e ["rev-parse"; "HEAD@{u}"] with
              | Throws code => Throw code s3
              | Returns upstream_out =>
                  let currentRev := JS.slice0 40 head_out in
                  let latestRev := JS.slice0 40 upstream_out in
                  let s4 :=
                    record (Log (Line ("Latest revision: " +:+ latestRev)))
                      (record (Log (Line ("Current revision: " +:+ currentRev)))
                         s3) in
                  if String.eqb currentRev latestRev
                  then scheduleUpdateCheck e s4
                  else update e (record (Log (Line "Updating...")) s4)
              end
          end
      end.
Proof.
  unfold checkForUpdates.
  change [Some "fetch"] with (map Some ["fetch"]).
  change [Some "rev-parse"; Some "HEAD"] with (map Some ["rev-parse"; "HEAD"]).
  change [Some "rev-parse"; Some "HEAD@{u}"]
    with (map Some ["rev-parse"; "HEAD@{u}"]).
  unfold bind at 1. unfold console_log at 1, emit, modify.
  unfold bind at 1. rewrite execFileSync_git_eq.
  destruct (git e ["fetch"]); [|reflexivity].
  unfold bind at 1. rewrite execFileSync_git_eq.
  destruct (git e ["rev-parse"; "HEAD"]) as [head_out|]; [|reflexivity].
  unfold bind at 1. rewrite execFileSync_git_eq.
  destruct (git e ["rev-parse"; "HEAD@{u}"]) as [upstream_out|]; [|reflexivity].
  cbv zeta.
  destruct (String.eqb (JS.slice0 40 head_out) (JS.slice0 40 upstream_out));
    reflexivity.
Qed.

(** ** The invariant of the event loop *)

Ltac norm_history := simpl; repeat rewrite <- app_assoc; simpl.

Ltac fold_running :=
  repeat match goal with
  | |- context [running_from ∅ ?h] => change (running_from ∅ h) with (running h)
  end.

Ltac map_simpl :=
  rewrite ?alter_singleton_eq, ?delete_singleton_eq, ?insert_empty,
    ?delete_empty, ?dom_singleton_L, ?dom_empty_L, ?dom_insert_L.

Ltac solve_quiet :=
  norm_history; apply quiet_from_app; split; [assumption|];
  fold_running;
  match goal with H : running _ = _ |- _ => rewrite H end;
  map_simpl; unfold git_pull; simpl;
  repeat split; try discriminate; try set_solver.

Ltac solve_phase :=
  unfold idle, awaiting_exit; simpl; map_simpl;
  first
    [ solve [left; split; [eexists; reflexivity|left; split; reflexivity]]
    | solve [left; split;
             [eexists; reflexivity|right; eexists; split; reflexivity]]
    | solve [right; eexists; repeat split; reflexivity] ].

Ltac solve_running :=
  norm_history; unfold running; rewrite running_from_app; fold_running;
  match goal with H : running _ = _ |- _ => rewrite H end;
  map_simpl; simpl; map_simpl; set_solver.

Ltac solve_counts :=
  norm_history; rewrite !count_app; simpl;
  match goal with H : count is_SetTimeout _ = _ |- _ => simpl in H; lia end.

Ltac solve_no_command :=
  let Hnone := fresh in
  simpl; intros Hnone; norm_history; rewrite count_app; simpl;
  first
    [ congruence
    | match goal with
      | H : _ = None -> count _ _ = _ |- _ =>
          rewrite H by first [assumption|reflexivity]; reflexivity
      end
    | match goal with
      | H : forall p, Some _ = Some p -> is_Some _ |- _ =>
          destruct (H _ eq_refl) as [? ?]; congruence
      end ].

Ltac solve_fresh :=
  let q := fresh in
  intros q; map_simpl;
  match goal with H : forall p, p ∈ _ -> (p < _)%nat |- _ =>
    revert H; map_simpl; intros H; specialize (H q)
  end;
  set_unfold; naive_solver lia.

Ltac solve_signalled :=
  let p := fresh in
  let sig := fresh in
  simpl; intros p sig; norm_history; rewrite last_app; simpl;
  first
    [ discriminate
    | intros [= <- <-]; unfold awaiting_exit; simpl; map_simpl;
      repeat split; reflexivity ].

Ltac solve_armed :=
  let d := fresh in
  let Hd := fresh in
  simpl; intros d Hd;
  first
    [ discriminate Hd
    | injection Hd as <-; eexists; exists []; split; reflexivity
    | match goal with
      | H : forall d', [_] = [d'] -> exists h tl, _ |- _ =>
          let h := fresh in
          let tl := fresh in
          let Htl := fresh in
          destruct (H _ Hd) as (h & tl & -> & Htl);
          exists h; eexists; split;
          [ rewrite <- app_assoc; simpl; reflexivity
          | rewrite forallb_app, Htl; reflexivity ]
      end ].

Ltac solve_consistent :=
  constructor;
  [ solve_phase | simpl; naive_solver | solve_running | solve_quiet
  | solve_counts | solve_no_command | solve_fresh | solve_signalled
  | solve_armed ].

Ltac leaf :=
  simpl; split;
  [ solve_quiet
  | first [ discriminate
          | let s' := fresh "s'" in intros s' [= <-]; solve_consistent ] ].

(** The tail of [update] once no child is left: pull, restart, schedule. *)
Ltac pull_and_restart e c :=
  rewrite update_eq; simpl;
  destruct (git e ["pull"]); [|leaf];
  unfold bind; rewrite startCommand_eq; simpl;
  let cmd := fresh "cmd" in
  let Hcommand := fresh "Hcommand" in
  destruct (command c) as [cmd|] eqn:Hcommand;
  [ destruct (spawn e (name cmd) (args cmd)); [|leaf] | ];
  rewrite scheduleUpdateCheck_eq; leaf.

Lemma dispatch_timer_consistent (e : env) (i : nat) (s : state) (o : outcome) :
  consistent s -> dispatch e (TimerFires i) s = Some o ->
  quiet_from ∅ (history (final o)) /\
  forall s', o = Running s' -> consistent s'.
Proof.
  intros [Hphase Hcmd Hrun Hq Hcnt Hnc Hfr _ Harmed].
  destruct s as [c h ch n ts hs]; simpl in *.
  unfold dispatch; simpl.
  destruct Hphase as [[[d Ht] Hphase] | (p & Ht & Hh & Hch)];
    simpl in *; subst ts; [|rewrite lookup_nil; discriminate].
  destruct i as [|i]; simpl; [|discriminate].
  intros [= <-]. rewrite checkForUpdates_eq; cbv zeta.
  destruct Hphase as [[-> ->] | (p & -> & ->)].
  all: destruct (git e ["fetch"]); simpl; [|leaf].
  all: destruct (git e ["rev-parse"; "HEAD"]) as [head_out|]; simpl; [|leaf].
  all: destruct (git e ["rev-parse"; "HEAD@{u}"]) as [upstream_out|]; simpl;
    [|leaf].
  all: destruct (String.eqb _ _); [rewrite scheduleUpdateCheck_eq; leaf|].
  - pull_and_restart e c.
  - rewrite update_eq; simpl.
    destruct (kill e p (signal c)); leaf.
Qed.

Lemma listeners_of_idle_child (e : env) (s : state) :
  forEach run_listener [ClearHandle] e s = Ok tt (set_commandProcess None s).
Proof. reflexivity. Qed.

Lemma listeners_of_awaited_child (e : env) (s : state) :
  forEach run_listener [ClearHandle; ClearHandleAndUpdate] e s
    = update e (set_commandProcess None (set_commandProcess None s)).
Proof.
  simpl. js_unfold.
  destruct (update e _) as [[] s'|code s'|code s']; reflexivity.
Qed.

Lemma some_outcome (a b : outcome) : Some a = Some b -> a = b.
Proof. congruence. Qed.

Lemma dispatch_exit_consistent (e : env) (p : pid) (s : state) (o : outcome) :
  consistent s -> dispatch e (ChildExits p) s = Some o ->
  quiet_from ∅ (history (final o)) /\
  forall s', o = Running s' -> consistent s'.
Proof.
  intros [Hphase Hcmd Hrun Hq Hcnt Hnc Hfr _ Harmed].
  destruct s as [c h ch n ts hs]; simpl in *.
  unfold dispatch; cbn [children].
  unfold idle, awaiting_exit in Hphase; simpl in Hphase.
  destruct Hphase as [[[d ->] [[-> ->] | (p0 & -> & ->)]] | (p0 & -> & -> & ->)].
  - rewrite lookup_empty. discriminate.
  - destruct (decide (p = p0)) as [->|Hne];
      [rewrite lookup_singleton_eq|rewrite lookup_singleton_ne by congruence;
                                   discriminate].
    cbv iota. intros <-%some_outcome. rewrite listeners_of_idle_child. leaf.
  - destruct (decide (p = p0)) as [->|Hne];
      [rewrite lookup_singleton_eq|rewrite lookup_singleton_ne by congruence;
                                   discriminate].
    cbv iota. intros <-%some_outcome. rewrite listeners_of_awaited_child.
    pull_and_restart e c.
Qed.
Lemma main_consistent (argv : list string) (e : env) :
  quiet_from ∅ (history (final (main argv e))) /\
  forall s, main argv e = Running s -> consistent s.
Proof.
  unfold main, script, bind.
  destruct (framed_setUp argv e state0) as (Hh & Hch & Hn & Hts & t & Ht & Hall).
  destruct (setUp argv e state0) as [[] s1|code s1|code s1]; simpl in *.
  2,3: split; [|discriminate]; subst t;
    apply (setup_actions _ ∅ Hall); reflexivity.
  destruct (setup_actions t ∅ Hall) as (Hrun & Hset & Hfired & Htouch & Hquiet).
  specialize (Hquiet eq_refl).
  destruct s1 as [c h ch n ts hs]; simpl in *; subst.
  assert (Hrun' : running t = dom (∅ : gmap pid (list listener)))
    by (rewrite dom_empty_L; exact Hrun).
  assert (Hcnt : count is_SetTimeout t
                 = (count is_TimerFired t + length (@nil JS.number))%nat)
    by (simpl; lia).
  assert (Hnc : command c = None -> count touches_process t = 0%nat)
    by (intros _; exact Htouch).
  assert (Hfr : forall p : nat,
            p ∈ dom (∅ : gmap pid (list listener)) -> (p < 0)%nat)
    by (intros p; rewrite dom_empty_L; set_solver).
  clear Hrun.
  rewrite startCommand_eq; simpl.
  destruct (command c) as [cmd|] eqn:Hcommand;
    [destruct (spawn e (name cmd) (args cmd))|];
    rewrite ?scheduleUpdateCheck_eq.
  - leaf.
  - split; [assumption|discriminate].
  - leaf.
Qed.

Lemma reachable_consistent (s : state) : reachable s -> consistent s.
Proof.
  induction 1 as [argv e s Hmain|e ev s s' Hreach IH Hstep].
  - apply (proj2 (main_consistent argv e)), Hmain.
  - destruct ev as [i|p].
    + apply (proj2 (dispatch_timer_consistent e i s _ IH Hstep)). reflexivity.
    + apply (proj2 (dispatch_exit_consistent e p s _ IH Hstep)). reflexivity.
Qed.

Lemma occurs_quiet (o : outcome) :
  occurs o -> pulls_undisturbed (history (final o)).
Proof.
  intros Ho. apply quiet_from_undisturbed.
  destruct Ho as [argv e|e ev s o Hreach Hstep].
  - apply (proj1 (main_consistent argv e)).
  - apply reachable_consistent in Hreach. destruct ev as [i|p].
    + apply (proj1 (dispatch_timer_consistent e i s o Hreach Hstep)).
    + apply (proj1 (dispatch_exit_consistent e p s o Hreach Hstep)).
Qed.

(** ** The worked examples are reachable *)

Lemma sample_boot_reachable : reachable sample_boot.
Proof.
  apply (reachable_main sample_argv (world (3, 0) "1111" "1111")).
  vm_compute. reflexivity.
Qed.

Lemma sample_signalled_reachable : reachable sample_signalled.
Proof.
  apply (reachable_dispatch (world (2, 0) "1111" "2222") (TimerFires 0)
           sample_boot).
  - exact sample_boot_reachable.
  - vm_compute. reflexivity.
Qed.

(** ** Stopping the child before the pull *)

(** The turn in which the exit of an awaited child is observed. *)
Lemma exit_of_awaited_child
    (e : env) (s : state) (p : pid) (cmd : command_spec) (pulled : string) :
  awaiting_exit p s ->
  command (conf s) = Some cmd ->
  git e ["pull"] = Returns pulled ->
  spawn e (name cmd) (args cmd) = Returns tt ->
  dispatch e (ChildExits p) s
    = Some (Running
        (scheduled (nextDelay (conf s) (clock e))
           (started cmd
              (record (Log (Line "Updated."))
                 (record git_pull
                    (set_commandProcess None
                       (set_commandProcess None
                          (record (ChildExited p)
                             (set_children (delete p) s))))))))).
Proof.
  intros (Ht & Hh & Hch) Hcommand Hpull Hspawn.
  unfold dispatch. rewrite Hch, lookup_singleton_eq.
  rewrite listeners_of_awaited_child, update_eq; simpl.
  rewrite Hpull. unfold bind. rewrite startCommand_eq; simpl.
  rewrite Hcommand, Hspawn, scheduleUpdateCheck_eq. reflexivity.
Qed.

(** The update cycle of the revision with the one-shot timer, where the
    next check is scheduled only at the end of a cycle.
    In a reachable state with a live child [p], when the timer fires and
    the two revisions differ, [update] signals [p] and returns: the turn ends
    with the signal, without a pull, and the supervisor awaits the exit of
    [p].  Until that exit is observed no other event can be delivered.  When
    it is observed, the pull runs, and only after it the command is spawned
    again and the next check scheduled.  In whatever way any run of the
    script ends, no pull in its history ran while a child was running. *)
Lemma update_stops_child_before_pull
    (s : state) (e : env) (i : nat) (p : pid)
    (fetched head_out upstream_out : string) :
  reachable s ->
  is_Some (timers s !! i) ->
  commandProcess s = Some p ->
  git e ["fetch"] = Returns fetched ->
  git e ["rev-parse"; "HEAD"] = Returns head_out ->
  git e ["rev-parse"; "HEAD@{u}"] = Returns upstream_out ->
  JS.slice0 40 head_out <> JS.slice0 40 upstream_out ->
  kill e p (signal (conf s)) = Returns tt ->
  exists (s1 : state) (cmd : command_spec),
    command (conf s) = Some cmd /\
    dispatch e (TimerFires i) s = Some (Running s1) /\
    history s1 = history s ++
      [ TimerFired;
        Log (Line "Checking for update...");
        ExecFileSync "git" ["fetch"];
        ExecFileSync "git" ["rev-parse"; "HEAD"];
        ExecFileSync "git" ["rev-parse"; "HEAD@{u}"];
        Log (Line ("Current revision: " +:+ JS.slice0 40 head_out));
        Log (Line ("Latest revision: " +:+ JS.slice0 40 upstream_out));
        Log (Line "Updating...");
        Kill p (signal (conf s)) ] /\
    awaiting_exit p s1 /\
    (forall (e' : env) (ev : event),
       ev <> ChildExits p -> dispatch e' ev s1 = None) /\
    (forall (e' : env) (pulled : string),
       git e' ["pull"] = Returns pulled ->
       spawn e' (name cmd) (args cmd) = Returns tt ->
       let delay := nextDelay (conf s) (clock e') in
       exists s2 : state,
         dispatch e' (ChildExits p) s1 = Some (Running s2) /\
         history s2 = history s1 ++
           [ ChildExited p;
             git_pull;
             Log (Line "Updated.");
             Spawn (spawned s) (name cmd) (args cmd) "inherit";
             Log (Scheduling delay);
             SetTimeout delay ] /\
         commandProcess s2 = Some (spawned s) /\
         children s2 = {[spawned s := [ClearHandle]]} /\
         timers s2 = [delay]) /\
    (forall o : outcome, occurs o -> pulls_undisturbed (history (final o))).
Proof.
  intros Hreach [d Hd] Hh Hfetch Hhead Hup Hne Hkill.
  pose proof (reachable_consistent s Hreach)
    as [Hphase Hcmd Hrun Hq Hcnt Hnc Hfr Hsig _].
  destruct (Hcmd p Hh) as [cmd Hcommand].
  assert (Hidle : timers s = [d] /\ i = 0%nat /\
                  children s = {[p := [ClearHandle]]}).
  { destruct Hphase as [[[d0 Ht] [[Hnone _]|(p0 & Hp0 & Hch)]]
                       | (p0 & Ht & _)].
    - congruence.
    - rewrite Ht in Hd. destruct i as [|i]; [|discriminate Hd].
      simpl in Hd. split; [congruence|]. split; [reflexivity|]. congruence.
    - rewrite Ht in Hd. discriminate Hd. }
  destruct Hidle as (Ht & -> & Hch).
  apply String.eqb_neq in Hne.
  pose (s1 := signalled p
    (record (Log (Line "Updating..."))
       (checked head_out upstream_out (fired 0 s)))).
  assert (Hstep : dispatch e (TimerFires 0) s = Some (Running s1)).
  { unfold dispatch. rewrite Hd, checkForUpdates_eq. cbv zeta.
    rewrite Hfetch, Hhead, Hup, Hne, update_eq. simpl.
    rewrite Hh, Hkill. reflexivity. }
  assert (Hawait : awaiting_exit p s1).
  { unfold awaiting_exit; simpl. rewrite Ht, Hh, Hch. map_simpl.
    repeat split; reflexivity. }
  exists s1, cmd. split; [exact Hcommand|].
  split; [exact Hstep|].
  split; [norm_history; reflexivity|].
  split; [exact Hawait|].
  split.
  { destruct Hawait as (Ht1 & _ & Hch1).
    intros e' [j|q] Hev; unfold dispatch.
    - rewrite Ht1, lookup_nil. reflexivity.
    - rewrite Hch1, lookup_singleton_ne by congruence. reflexivity. }
  split; [|exact occurs_quiet].
  intros e' pulled Hpull Hspawn.
  erewrite exit_of_awaited_child;
    [|exact Hawait|exact Hcommand|exact Hpull|exact Hspawn].
  eexists. split; [reflexivity|].
  norm_history. rewrite Hch, Ht. map_simpl. repeat split; reflexivity.
Qed.

(** From the sample state: the timer fires at 02:00 with a new upstream
    revision, child 0 is signalled and awaited. *)
Lemma update_stops_child_before_pull_witness :
  exists s1 : state,
    dispatch (world (2, 0) "1111" "2222") (TimerFires 0) sample_boot
      = Some (Running s1) /\
    awaiting_exit 0%nat s1.
Proof.
  edestruct (update_stops_child_before_pull sample_boot
               (world (2, 0) "1111" "2222") 0%nat 0%nat "" "1111" "2222")
    as (s1 & cmd & _ & Hstep & _ & Hawait & _).
  - apply (reachable_main sample_argv (world (3, 0) "1111" "1111")).
    vm_compute. reflexivity.
  - vm_compute. eexists. reflexivity.
  - vm_compute. reflexivity.
  - reflexivity.
  - reflexivity.
  - reflexivity.
  - vm_compute. discriminate.
  - reflexivity.
  - exists s1. split; assumption.
Defined.

(** ** A child that does not exit *)

(** C5: in a reachable state whose last action is the signal sent to child
    [p] (so [p] has been signalled and its exit has not been observed), no
    timer is outstanding and [p] is the only child; no event other than the
    exit of [p] can be delivered, and a run in which [p] does not exit leaves
    the supervisor exactly where it is: nothing is added to the history, so
    no pull is run, no command is started and no check is scheduled. *)
Theorem signalled_child_must_exit (s : state) (p : pid) (sig : option string) :
  reachable s ->
  last (history s) = Some (Kill p sig) ->
  timers s = [] /\
  children s = {[p := [ClearHandle; ClearHandleAndUpdate]]} /\
  (forall (e : env) (ev : event),
     ev <> ChildExits p -> dispatch e ev s = None) /\
  (forall (turns : list (env * event)) (o : outcome),
     Forall (fun turn => snd turn <> ChildExits p) turns ->
     run turns s = Some o ->
     o = Running s /\ history (final o) = history s).
Proof.
  intros Hreach Hlast.
  destruct (consistent_signalled s (reachable_consistent s Hreach) p sig Hlast)
    as (Ht & Hh & Hch).
  assert (Hstuck : forall (e : env) (ev : event),
            ev <> ChildExits p -> dispatch e ev s = None).
  { intros e [j|q] Hev; unfold dispatch.
    - rewrite Ht, lookup_nil. reflexivity.
    - rewrite Hch, lookup_singleton_ne by congruence. reflexivity. }
  split; [exact Ht|]. split; [exact Hch|]. split; [exact Hstuck|].
  intros turns o Hall Hrun. destruct turns as [|[e ev] turns].
  - simpl in Hrun. injection Hrun as <-. split; reflexivity.
  - apply Forall_cons in Hall as [Hev _]. simpl in Hev, Hrun.
    rewrite (Hstuck e ev Hev) in Hrun.
    destruct turns; discriminate Hrun.
Qed.

(** In the sample state after the signal, a timer event cannot be delivered
    and the empty run is the only one. *)
Lemma signalled_child_must_exit_witness :
  timers sample_signalled = [] /\
  dispatch (world (9, 0) "1111" "2222") (TimerFires 0) sample_signalled = None.
Proof.
  edestruct (signalled_child_must_exit sample_signalled 0%nat (Some "SIGINT"))
    as (Ht & _ & Hstuck & _).
  - apply (reachable_dispatch (world (2, 0) "1111" "2222") (TimerFires 0)
             sample_boot).
    + apply (reachable_main sample_argv (world (3, 0) "1111" "1111")).
      vm_compute. reflexivity.
    + vm_compute. reflexivity.
  - vm_compute. reflexivity.
  - split; [exact Ht|]. apply Hstuck. discriminate.
Defined.

(** ** Timers *)

(** C6, as worded, fails: after the timer has fired and [update] has
    signalled the child, the supervisor waits in the loop with no timer
    outstanding. *)
Lemma no_timer_while_awaiting_exit :
  reachable sample_signalled /\
  timers sample_signalled = [] /\
  ~ (forall s : state, reachable s -> length (timers s) = 1%nat).
Proof.
  split; [exact sample_signalled_reachable|].
  split; [vm_compute; reflexivity|].
  intros Hall. specialize (Hall sample_signalled sample_signalled_reachable).
  vm_compute in Hall. discriminate Hall.
Qed.

(** C6, amended: whenever the supervisor waits in the loop, either no check
    cycle is in flight and exactly one one-shot timer is outstanding, or
    [update] awaits the exit of the child and no timer is outstanding.  In
    the first case the outstanding timer is the one of the last call of
    [setTimeout], and that call was the last thing the script did (only
    exits of children have been observed since).  [setTimeout] has been
    called once at startup and once for every timer that fired and whose
    cycle is complete: as many times as timers have fired plus one in the
    first case, as many times as timers have fired in the second, where the
    cycle of the last one is still in flight. *)
Theorem one_timer_between_cycles (s : state) :
  reachable s ->
  (idle s /\
   (exists (d : JS.number) (h tl : list action),
      timers s = [d] /\
      history s = h ++ SetTimeout d :: tl /\
      forallb is_ChildExited tl = true) /\
   count is_SetTimeout (history s)
     = (count is_TimerFired (history s) + 1)%nat) \/
  (exists p : pid,
     awaiting_exit p s /\
     timers s = [] /\
     count is_SetTimeout (history s) = count is_TimerFired (history s)).
Proof.
  intros Hreach.
  destruct (reachable_consistent s Hreach)
    as [Hphase _ _ _ Hcnt _ _ _ Harmed].
  destruct Hphase as [Hidle | (p & Hawait)].
  - left. destruct Hidle as [[d Ht] Hchild] eqn:E. clear E.
    rewrite Ht in Hcnt. simpl in Hcnt.
    destruct (Harmed d Ht) as (h & tl & Hh & Htl).
    split; [split; [exists d; exact Ht|exact Hchild]|].
    split; [exists d, h, tl; auto|exact Hcnt].
  - right. exists p. destruct Hawait as (Ht & Hh & Hch) eqn:E. clear E.
    rewrite Ht in Hcnt. simpl in Hcnt.
    split; [repeat split; assumption|]. split; [exact Ht|lia].
Qed.

(** After the top level of the sample command line one timer is armed. *)
Lemma one_timer_between_cycles_witness :
  (exists d : JS.number, timers sample_boot = [d]) /\
  count is_SetTimeout (history sample_boot) = 1%nat.
Proof.
  destruct (one_timer_between_cycles sample_boot)
    as [(_ & (d & _ & _ & Ht & _) & Hcnt)|Hawait].
  - apply (reachable_main sample_argv (world (3, 0) "1111" "1111")).
    vm_compute. reflexivity.
  - split; [exists d; exact Ht|exact Hcnt].
  - destruct Hawait as (p & (Ht & _) & _). vm_compute in Ht. discriminate Ht.
Defined.

(** ** Starting the command *)

(** [startCommand] of the revision with the one-shot timer, which registers
    its listener with [commandProcess.on('exit', ...)].
    With a command configured, [startCommand] spawns a new child (the
    next in the order of creation) with the standard streams inherited,
    stores its handle in [commandProcess] and registers on it the listener
    that clears the handle; when the exit of that child is then observed,
    for whatever reason, that listener runs and leaves [commandProcess]
    empty.  Every child that the loop finds alive carries this listener
    first. *)
Lemma startCommand_spawns_and_observes
    (e : env) (s : state) (cmd : command_spec) :
  command (conf s) = Some cmd ->
  spawn e (name cmd) (args cmd) = Returns tt ->
  let p := spawned s in
  let s' := started cmd s in
  startCommand e s = Ok tt s' /\
  history s' = history s ++ [Spawn p (name cmd) (args cmd) "inherit"] /\
  spawned s' = S p /\
  commandProcess s' = Some p /\
  children s' !! p = Some [ClearHandle] /\
  (forall e' : env,
     dispatch e' (ChildExits p) s'
       = Some (Running
           (set_commandProcess None
              (record (ChildExited p) (set_children (delete p) s')))) /\
     run_listener ClearHandle e' s' = Ok tt (set_commandProcess None s')) /\
  (forall (s0 : state) (q : pid) (ls : list listener),
     reachable s0 -> children s0 !! q = Some ls ->
     exists ls', ls = ClearHandle :: ls').
Proof.
  intros Hcommand Hspawn p s'. subst p s'.
  split; [rewrite startCommand_eq, Hcommand, Hspawn; reflexivity|].
  split; [reflexivity|]. split; [reflexivity|]. split; [reflexivity|].
  assert (Hlook : children (started cmd s) !! spawned s = Some [ClearHandle])
    by apply lookup_insert_eq.
  split; [exact Hlook|]. split.
  - intros e'. split; [|reflexivity].
    unfold dispatch. unfold pid in *. rewrite Hlook. reflexivity.
  - intros s0 q ls Hreach Hq.
    destruct (reachable_consistent s0 Hreach) as [Hphase _ _ _ _ _ _ _ _].
    destruct Hphase as [[_ [[_ Hch]|(p0 & _ & Hch)]] | (p0 & _ & _ & Hch)];
      rewrite Hch in Hq.
    + rewrite lookup_empty in Hq. discriminate Hq.
    + apply lookup_singleton_Some in Hq as [_ <-]. eexists; reflexivity.
    + apply lookup_singleton_Some in Hq as [_ <-]. eexists; reflexivity.
Qed.

(** Started from the initial state with the command [server], the child is
    number 0, and its exit clears the handle. *)
Lemma startCommand_spawns_and_observes_witness :
  let s := set_conf (set_command (Some {| name := "server"; args := [] |}))
             state0 in
  exists s' s'' : state,
    startCommand (world (0, 0) "" "") s = Ok tt s' /\
    commandProcess s' = Some 0%nat /\
    dispatch (world (0, 0) "" "") (ChildExits 0%nat) s' = Some (Running s'') /\
    commandProcess s'' = None.
Proof.
  intros s.
  destruct (startCommand_spawns_and_observes (world (0, 0) "" "") s
              {| name := "server"; args := [] |} eq_refl eq_refl)
    as (Hstart & _ & _ & Hhandle & _ & Hexit & _).
  destruct (Hexit (world (0, 0) "" "")) as [Hdispatch _].
  eexists. eexists. split; [exact Hstart|]. split; [exact Hhandle|].
  split; [exact Hdispatch|reflexivity].
Defined.

(** ** No command *)

(** C9: when no command is configured, [startCommand] does nothing; [update],
    which then finds no child, runs the pull, logs it and schedules the next
    check (or stops at the pull when the pull throws); and a supervisor that
    the loop finds without a command has no child, no handle, and has never
    spawned or signalled a process. *)
Theorem update_without_command :
  (forall (e : env) (s : state),
     command (conf s) = None ->
     startCommand e s = Ok tt s /\
     (commandProcess s = None ->
      update e s
        = match git e ["pull"] with
          | Returns _ =>
              Ok tt (scheduled (nextDelay (conf s) (clock e))
                       (record (Log (Line "Updated.")) (record git_pull s)))
          | Throws code => Throw code (record git_pull s)
          end)) /\
  (forall s : state,
     reachable s -> command (conf s) = None ->
     commandProcess s = None /\
     children s = ∅ /\
     count touches_process (history s) = 0%nat).
Proof.
  split.
  - intros e s Hnone.
    assert (Hstart : forall s0, conf s0 = conf s -> startCommand e s0 = Ok tt s0).
    { intros s0 Hc. rewrite startCommand_eq, Hc, Hnone. reflexivity. }
    split; [apply Hstart; reflexivity|].
    intros Hh. rewrite update_eq, Hh.
    destruct (git e ["pull"]); [|reflexivity].
    unfold bind. rewrite Hstart by reflexivity.
    rewrite scheduleUpdateCheck_eq. reflexivity.
  - intros s Hreach Hnone.
    destruct (reachable_consistent s Hreach)
      as [Hphase Hcmd _ _ _ Hnc _ _ _].
    assert (Hh : commandProcess s = None).
    { destruct (commandProcess s) as [p|] eqn:Hp; [|reflexivity].
      destruct (Hcmd p eq_refl) as [cmd Hsome]. congruence. }
    split; [exact Hh|]. split; [|exact (Hnc Hnone)].
    destruct Hphase as [[_ [[_ Hch]|(p0 & Hp0 & _)]] | (p0 & _ & Hp0 & _)];
      [exact Hch|congruence|congruence].
Qed.

(** The sample without a command: it pulls and schedules, and its history
    holds no process action. *)
Lemma update_without_command_witness :
  update (world (3, 0) "1111" "2222") bare_boot
    = Ok tt (scheduled (JS.Num 3600000)
               (record (Log (Line "Updated.")) (record git_pull bare_boot))) /\
  count touches_process (history bare_boot) = 0%nat.
Proof.
  destruct update_without_command as [Hupdate Hreach].
  destruct (Hupdate (world (3, 0) "1111" "2222") bare_boot eq_refl)
    as [_ Hu].
  destruct (Hreach bare_boot) as (_ & _ & Hcount).
  - apply (reachable_main bare_argv (world (3, 0) "1111" "1111")).
    vm_compute. reflexivity.
  - reflexivity.
  - split; [exact (Hu eq_refl)|exact Hcount].
Defined.

(** ** The interval-only revision

    Where [lib/git-auto-updater.js] departs from what is proved above. *)

Lemma lib_validateConfiguration_eq (e : env) (s : state) :
  Lib.validateConfiguration e s
    = Ok (JS.truthy (repository (conf s)) &&
          JS.truthy (path (derivePath (conf s))) &&
          (JS.isInteger (frequency (conf s)) &&
           negb (JS.lt (frequency (conf s)) (JS.Num 1))))
         (set_conf derivePath s).
Proof.
  unfold Lib.validateConfiguration, derivePath. js_unfold.
  destruct s as [c h ch n ts hs]; destruct c as [r b p f t sg cmd].
  cbn -[JS.basename]. unfold set_conf; cbn -[JS.basename].
  destruct (JS.truthy p) eqn:Hp, (JS.truthy r) eqn:Hr; cbn -[JS.basename];
    rewrite ?Hp, ?Hr; cbn -[JS.basename];
    try destruct (String.eqb (JS.basename (default "" r) ".git") "");
    cbn -[JS.basename];
    destruct f as [y|]; cbn -[JS.basename]; try destruct (y <? 1);
    reflexivity.
Qed.

(** C3, as worded, fails in the interval-only revision: a path without a
    repository URI, with the default frequency, passes the validation of the
    revision with the time of day, and is rejected by the interval-only
    revision, which then prints the usage and exits with status 1. *)
Lemma lib_rejects_path_without_repository :
  validSchedule (conf (set_conf (set_path (Some "repo")) state0)) = true /\
  validateConfiguration (world (0, 0) "" "")
      (set_conf (set_path (Some "repo")) state0)
    = Ok true (set_conf (set_path (Some "repo")) state0) /\
  Lib.validateConfiguration (world (0, 0) "" "")
      (set_conf (set_path (Some "repo")) state0)
    = Ok false (set_conf (set_path (Some "repo")) state0) /\
  exists s' : state,
    Lib.main ["node"; "git-auto-updater"; "--path"; "repo"]
      (world (0, 0) "" "") = Exited 1 s'.
Proof.
  split; [reflexivity|]. split; [reflexivity|]. split; [reflexivity|].
  eexists. vm_compute. reflexivity.
Qed.

(** C3: when neither a repository URI nor a path is given (absent, or the
    empty string, which the script cannot tell from absent),
    [validateConfiguration] returns false in both revisions, and the program
    prints the usage and exits with status 1.  In the revision with the time
    of day one of the two is enough to pass the first test, and the verdict
    is then that of the schedule test alone.  The interval-only revision
    asks for the repository URI and for a path, given or derived from the
    URI, that is not empty: with both, the verdict is that of the frequency
    test alone, and without a repository URI the configuration is rejected
    whatever the path is. *)
Theorem validateConfiguration_repository_and_path (e : env) (s : state) :
  (JS.truthy (repository (conf s)) = false ->
   JS.truthy (path (conf s)) = false ->
   validateConfiguration e s = Ok false s /\
   Lib.validateConfiguration e s = Ok false s /\
   forall argv : list string,
     (parseArguments argv e state0 = Ok tt s ->
      exists s', main argv e = Exited 1 s' /\
        history s' = history s ++
          Log (Line "Not enough or invalid arguments")
            :: map (fun line => Log (Line line)) usage) /\
     (Lib.parseArguments argv e state0 = Ok tt s ->
      exists s', Lib.main argv e = Exited 1 s' /\
        history s' = history s ++
          Log (Line "Not enough or invalid arguments")
            :: map (fun line => Log (Line line)) Lib.usage)) /\
  (JS.truthy (repository (conf s)) = true \/
   JS.truthy (path (conf s)) = true ->
   validateConfiguration e s
     = Ok (validSchedule (conf s)) (set_conf derivePath s)) /\
  (JS.truthy (repository (conf s)) = true ->
   JS.truthy (path (derivePath (conf s))) = true ->
   Lib.validateConfiguration e s
     = Ok (validSchedule (set_time None (conf s))) (set_conf derivePath s)) /\
  (JS.truthy (repository (conf s)) = false ->
   Lib.validateConfiguration e s = Ok false s).
Proof.
  assert (Hlib : JS.truthy (repository (conf s)) = false ->
                 Lib.validateConfiguration e s = Ok false s).
  { intros Hr. rewrite lib_validateConfiguration_eq, Hr.
    unfold set_conf, derivePath. rewrite Hr, andb_false_r.
    destruct s; reflexivity. }
  destruct (validateConfiguration_needs_repository_or_path e s)
    as [Hneither Hone].
  split; [|split; [exact Hone|split; [|exact Hlib]]].
  - intros Hr Hp. destruct (Hneither Hr Hp) as [Hv Hmain].
    split; [exact Hv|]. split; [exact (Hlib Hr)|].
    intros argv. split; [apply Hmain|].
    intros Hparse. unfold Lib.main, Lib.script.
    unfold bind at 1. unfold Lib.setUp.
    unfold bind at 1. rewrite Hparse.
    unfold bind at 1. rewrite (Hlib Hr).
    eexists; split; [reflexivity|]. simpl.
    repeat rewrite <- app_assoc. reflexivity.
  - intros Hr Hp. rewrite lib_validateConfiguration_eq, Hr, Hp.
    reflexivity.
Qed.

(** With no option at all both revisions exit with status 1. *)
Lemma validateConfiguration_repository_and_path_witness :
  (exists s' : state,
     main ["node"; "git-auto-updater"] (world (0, 0) "" "") = Exited 1 s') /\
  (exists s' : state,
     Lib.main ["node"; "git-auto-updater"] (world (0, 0) "" "")
       = Exited 1 s').
Proof.
  destruct (validateConfiguration_repository_and_path
              (world (0, 0) "" "") state0) as [H _].
  destruct (H eq_refl eq_refl) as (_ & _ & Hmain).
  destruct (Hmain ["node"; "git-auto-updater"]) as [Hm Hl].
  destruct (Hm eq_refl) as [s1 [Hs1 _]].
  destruct (Hl eq_refl) as [s2 [Hs2 _]].
  split; [exists s1; exact Hs1|exists s2; exact Hs2].
Defined.

(** C7: the interval-only revision hands the closure that clears the handle
    to [spawn] as a fourth argument, and so registers no observer of the
    exit.  After [startCommand] the child has no listener; when it exits on
    its own the handle stays in [commandProcess]; the next update signals a
    child that is gone and waits for an exit that has already happened. *)
Theorem lib_exit_keeps_handle :
  let e := world (0, 0) "1111" "2222" in
  children Lib.sample_boot !! 0%nat = Some [] /\
  exists s1 s2 : state,
    Lib.dispatch e (Lib.ChildExits 0%nat) Lib.sample_boot = Some (Running s1) /\
    commandProcess s1 = Some 0%nat /\ children s1 = ∅ /\
    Lib.dispatch e (Lib.IntervalFires 0) s1 = Some (Running s2) /\
    last (history s2) = Some (Kill 0%nat (Some "SIGINT")) /\
    children s2 = ∅ /\
    forall p : pid, Lib.dispatch e (Lib.ChildExits p) s2 = None.
Proof.
  intros e. split; [vm_compute; reflexivity|].
  eexists. eexists.
  split; [vm_compute; reflexivity|].
  split; [reflexivity|]. split; [vm_compute; reflexivity|].
  split; [vm_compute; reflexivity|].
  split; [vm_compute; reflexivity|].
  split; [vm_compute; reflexivity|].
  intros p. reflexivity.
Qed.

(** C1: in the interval-only revision the interval keeps firing while
    [update] waits for the exit of the child.  When it fires twice before
    the signalled child exits, two listeners are registered; at the exit the
    first one pulls and spawns child 1, and the second one clears the handle
    and pulls again while child 1 is running. *)
Theorem lib_update_overlaps :
  let e := world (0, 0) "1111" "2222" in
  exists s : state,
    Lib.run [(e, Lib.IntervalFires 0); (e, Lib.IntervalFires 0);
             (e, Lib.ChildExits 0%nat)] Lib.sample_boot
      = Some (Running s) /\
    (exists h1 h2 : list action,
       history s = h1 ++ git_pull :: h2 /\ running h1 = {[1%nat]}) /\
    ~ pulls_undisturbed (history s).
Proof.
  intros e. eexists. split; [vm_compute; reflexivity|].
  match goal with |- (exists h1 h2, history ?s = _ /\ _) /\ _ =>
    assert (Hsplit : history s
                     = take 24 (history s) ++ git_pull :: drop 25 (history s))
      by (vm_compute; reflexivity);
    assert (Hrun : running (take 24 (history s)) = {[1%nat]})
      by (vm_compute; reflexivity)
  end.
  split.
  - eexists. eexists. split; [exact Hsplit|exact Hrun].
  - intros Hquiet. specialize (Hquiet _ _ Hsplit).
    rewrite Hrun in Hquiet.
    assert (Hin : (1%nat : pid) ∈ (∅ : gset pid))
      by (rewrite <- Hquiet; set_solver).
    set_solver.
Qed.

(** ** The command line *)

Lemma printUsage_eq (e : env) (s : state) :
  printUsage e s = Ok tt (printed usage s).
Proof.
  unfold printUsage, printed.
  generalize usage. intros lines. revert s.
  induction lines as [|l lines IH]; intros s; simpl.
  - rewrite app_nil_r. destruct s; reflexivity.
  - unfold bind. unfold console_log at 1, emit, modify. rewrite IH. simpl.
    rewrite <- app_assoc. reflexivity.
Qed.

Lemma parseLoop_help (arg : string) (rest : list string) (e : env) (s : state) :
  is_help arg = true ->
  parseLoop false (arg :: rest) e s = Exit 0 (printed usage s).
Proof.
  intros H. unfold is_help, is_one_of in H. simpl in H.
  simpl parseLoop. unfold is_one_of. simpl existsb. rewrite H.
  unfold bind. rewrite printUsage_eq. reflexivity.
Qed.

Lemma parseLoop_unknown (arg : string) (rest : list string) (e : env) (s : state) :
  is_option arg = false ->
  parseLoop false (arg :: rest) e s = parseLoop false rest e s.
Proof.
  unfold is_option, is_one_of. simpl existsb. intros H.
  repeat (apply orb_false_iff in H as [?H H]).
  simpl parseLoop. unfold is_one_of. simpl existsb.
  repeat match goal with Hx : String.eqb arg _ = false |- _ =>
    rewrite Hx; clear Hx end.
  reflexivity.
Qed.

Lemma parseLoop_option
    (o : operand_option) (long : bool) (v : string) (rest : list string)
    (e : env) (s : state) :
  parseLoop false (spelling o long :: v :: rest) e s
    = parseLoop false rest e (set_conf (assign o (Some v)) s).
Proof. destruct o, long; reflexivity. Qed.

Lemma parseLoop_option_last
    (o : operand_option) (long : bool) (e : env) (s : state) :
  parseLoop false [spelling o long] e s
    = Ok tt (set_conf (assign o None) s).
Proof. destruct o, long; reflexivity. Qed.

Lemma parseLoop_options_app
    (opts : list (operand_option * bool * string)) (rest : list string)
    (e : env) (s : state) :
  parseLoop false (spelled_options opts ++ rest) e s
    = parseLoop false rest e (set_conf (assign_all opts) s).
Proof.
  revert s. induction opts as [|[[o long] v] opts IH]; intros s.
  - destruct s; reflexivity.
  - unfold spelled_options in *. simpl flat_map. simpl app.
    rewrite parseLoop_option, IH. reflexivity.
Qed.

(** X2: the options that take an operand, each followed by its operand, are
    stored from left to right, the short and the long spelling alike, so
    that a later occurrence of an option overrides an earlier one; an option
    that is the last word of the command line stores [undefined]. *)
Theorem parseLoop_options
    (opts : list (operand_option * bool * string)) (e : env) (s : state) :
  (forall rest : list string,
     parseLoop false (spelled_options opts ++ rest) e s
       = parseLoop false rest e (set_conf (assign_all opts) s)) /\
  parseLoop false (spelled_options opts) e s
    = Ok tt (set_conf (assign_all opts) s) /\
  (forall (o : operand_option) (long : bool),
     parseLoop false (spelled_options opts ++ [spelling o long]) e s
       = Ok tt (set_conf (fun c => assign o None (assign_all opts c)) s)).
Proof.
  split; [intros rest; apply parseLoop_options_app|]. split.
  - rewrite <- (app_nil_r (spelled_options opts)), parseLoop_options_app.
    reflexivity.
  - intros o long. rewrite parseLoop_options_app, parseLoop_option_last.
    reflexivity.
Qed.

Lemma parseLoop_building (args : list string) (e : env) (s : state) :
  parseLoop true args e s
    = Ok tt (set_conf (fun c => fold_left (fun c a => buildCommand a c) args c) s).
Proof.
  revert s. induction args as [|a args IH]; intros s.
  - destruct s; reflexivity.
  - simpl parseLoop. unfold bind, modify. rewrite IH. reflexivity.
Qed.

Lemma buildCommand_more (more : list string) (c : config) (cmd : command_spec) :
  command c = Some cmd ->
  fold_left (fun c a => buildCommand a c) more c
    = set_command (Some {| name := name cmd; args := args cmd ++ more |}) c.
Proof.
  revert c cmd. induction more as [|a more IH]; intros c cmd Hc; simpl.
  - rewrite app_nil_r. destruct c, cmd; simpl in *. subst. reflexivity.
  - erewrite IH by (unfold buildCommand; rewrite Hc; reflexivity).
    unfold buildCommand. rewrite Hc. simpl. rewrite <- app_assoc. reflexivity.
Qed.

(** X3: after [--] nothing is an option any more: the first word is the
    name of the command and all the words after it, whatever they look
    like, are its arguments in order.  A [--] that nothing follows leaves
    the configuration without a command. *)
Theorem parseLoop_command
    (first : string) (more : list string) (e : env) (s : state) :
  command (conf s) = None ->
  parseLoop false ("--" :: first :: more) e s
    = Ok tt (set_conf (set_command (Some {| name := first; args := more |})) s)
  /\ parseLoop false ["--"] e s = Ok tt s.
Proof.
  intros Hnone. split; [|reflexivity].
  change (parseLoop false ("--" :: first :: more) e s)
    with (parseLoop true (first :: more) e s).
  rewrite parseLoop_building. simpl fold_left.
  unfold set_conf. f_equal. f_equal.
  erewrite buildCommand_more
    by (unfold buildCommand; rewrite Hnone; reflexivity).
  unfold buildCommand. rewrite Hnone. reflexivity.
Qed.

Lemma assign_all_command (opts : list (operand_option * bool * string)) (c : config) :
  command (assign_all opts c) = command c.
Proof.
  unfold assign_all. revert c.
  induction opts as [|[[o long] v] opts IH]; intros c; simpl; [reflexivity|].
  rewrite IH. destruct o; reflexivity.
Qed.

(** X1: a help flag ([-h] or [--help]) that stands where an option is
    expected ends the program at once with status 0 after the usage text:
    the options before it have been stored, what follows it is never read,
    and the configuration is not validated. *)
Theorem main_help
    (node file help : string) (opts : list (operand_option * bool * string))
    (rest : list string) (e : env) :
  is_option file = false ->
  is_help help = true ->
  main (node :: file :: spelled_options opts ++ help :: rest) e
    = Exited 0 (printed usage (set_conf (assign_all opts) state0)).
Proof.
  intros Hfile Hhelp. unfold main, script, setUp, parseArguments.
  unfold bind at 1. unfold bind at 1. simpl tail.
  rewrite parseLoop_unknown by exact Hfile.
  rewrite parseLoop_options_app.
  rewrite parseLoop_help by exact Hhelp. reflexivity.
Qed.

Lemma parseLoop_cases (x : string) (rest : list string) (e : env) (s : state) :
  (is_help x = true /\
   parseLoop false (x :: rest) e s = Exit 0 (printed usage s)) \/
  (exists (o : operand_option) (long : bool),
     x = spelling o long /\
     parseLoop false (x :: rest) e s
       = match rest with
         | [] => Ok tt (set_conf (assign o None) s)
         | v :: rest' =>
             parseLoop false rest' e (set_conf (assign o (Some v)) s)
         end) \/
  (x = "--" /\ parseLoop false (x :: rest) e s = parseLoop true rest e s) \/
  (is_option x = false /\
   parseLoop false (x :: rest) e s = parseLoop false rest e s).
Proof.
  destruct (is_option x) eqn:Hopt.
  - unfold is_option, is_one_of in Hopt. cbn [existsb] in Hopt.
    repeat (apply orb_true_iff in Hopt as [Hx|Hopt];
            [apply String.eqb_eq in Hx; subst x|]);
      try discriminate Hopt;
      first
        [ left; split; [reflexivity|apply parseLoop_help; reflexivity]
        | right; right; left; split; reflexivity
        | right; left;
          first
            [ exists OptRepository, false; split; [reflexivity|]
            | exists OptRepository, true; split; [reflexivity|]
            | exists OptBranch, false; split; [reflexivity|]
            | exists OptBranch, true; split; [reflexivity|]
            | exists OptPath, false; split; [reflexivity|]
            | exists OptPath, true; split; [reflexivity|]
            | exists OptFrequency, false; split; [reflexivity|]
            | exists OptFrequency, true; split; [reflexivity|]
            | exists OptTime, false; split; [reflexivity|]
            | exists OptTime, true; split; [reflexivity|]
            | exists OptSignal, false; split; [reflexivity|]
            | exists OptSignal, true; split; [reflexivity|] ];
          destruct rest; reflexivity ].
  - right. right. right. split; [reflexivity|].
    apply parseLoop_unknown, Hopt.
Qed.

(** Where the loop can end the program: at a help flag that it reads as an
    option. *)
Lemma parseLoop_false_exit (l : list string) (e : env) :
  (forall s, exists c' : config,
     parseLoop false l e s = Ok tt (set_conf (fun _ => c') s) \/
     (parseLoop false l e s
        = Exit 0 (printed usage (set_conf (fun _ => c') s)) /\
      exists (pre : list string) (help : string) (post : list string),
        l = pre ++ help :: post /\ option_words pre /\
        is_help help = true)) /\
  (forall x s, exists c' : config,
     parseLoop false (x :: l) e s = Ok tt (set_conf (fun _ => c') s) \/
     (parseLoop false (x :: l) e s
        = Exit 0 (printed usage (set_conf (fun _ => c') s)) /\
      exists (pre : list string) (help : string) (post : list string),
        x :: l = pre ++ help :: post /\ option_words pre /\
        is_help help = true)).
Proof.
  induction l as [|a r [IH1 IH2]].
  - split.
    + intros s. exists (conf s). left. destruct s; reflexivity.
    + intros x s.
      destruct (parseLoop_cases x [] e s)
        as [[Hh ->]|[(o & long & _ & ->)|[[_ ->]|[_ ->]]]].
      * exists (conf s). right. split; [destruct s; reflexivity|].
        exists [], x, []. split; [reflexivity|]. split; [constructor|exact Hh].
      * exists (assign o None (conf s)). left. reflexivity.
      * exists (conf s). left. destruct s; reflexivity.
      * exists (conf s). left. destruct s; reflexivity.
  - split; [intros s; apply IH2|].
    intros x s.
    destruct (parseLoop_cases x (a :: r) e s)
      as [[Hh ->]|[(o & long & Hx & ->)|[[_ ->]|[Hx ->]]]].
    + exists (conf s). right. split; [destruct s; reflexivity|].
      exists [], x, (a :: r). split; [reflexivity|].
      split; [constructor|exact Hh].
    + destruct (IH1 (set_conf (assign o (Some a)) s))
        as [c' [Hok|(Hexit & pre & h & post & Heq & Hpre & Hh)]].
      * exists c'. left. exact Hok.
      * exists c'. right. split; [exact Hexit|].
        exists (x :: a :: pre), h, post.
        split; [rewrite Heq; reflexivity|].
        split; [rewrite Hx; constructor; exact Hpre|exact Hh].
    + eexists. left. rewrite parseLoop_building. reflexivity.
    + destruct (IH2 a s)
        as [c' [Hok|(Hexit & pre & h & post & Heq & Hpre & Hh)]].
      * exists c'. left. exact Hok.
      * exists c'. right. split; [exact Hexit|].
        exists (x :: pre), h, post.
        split; [rewrite Heq; reflexivity|].
        split; [constructor; assumption|exact Hh].
Qed.

Lemma parseLoop_false_outcome (l : list string) (e : env) :
  (forall s, exists c' : config,
     parseLoop false l e s = Ok tt (set_conf (fun _ => c') s) \/
     (parseLoop false l e s
        = Exit 0 (printed usage (set_conf (fun _ => c') s)) /\
      exists help, In help l /\ is_help help = true)) /\
  (forall x s, exists c' : config,
     parseLoop false (x :: l) e s = Ok tt (set_conf (fun _ => c') s) \/
     (parseLoop false (x :: l) e s
        = Exit 0 (printed usage (set_conf (fun _ => c') s)) /\
      exists help, In help (x :: l) /\ is_help help = true)).
Proof.
  destruct (parseLoop_false_exit l e) as [H1 H2]. split.
  - intros s.
    destruct (H1 s) as [c' [Hok|(Hexit & pre & h & post & Heq & _ & Hh)]];
      exists c'; [left; exact Hok|right].
    split; [exact Hexit|]. exists h. split; [|exact Hh].
    rewrite Heq. apply in_elt.
  - intros x s.
    destruct (H2 x s) as [c' [Hok|(Hexit & pre & h & post & Heq & _ & Hh)]];
      exists c'; [left; exact Hok|right].
    split; [exact Hexit|]. exists h. split; [|exact Hh].
    rewrite Heq. apply in_elt.
Qed.

(** A run of words read as options leaves the loop at the word after it,
    with nothing but [conf] changed. *)
Lemma parseLoop_option_words
    (pre rest : list string) (e : env) (s : state) :
  option_words pre ->
  exists c' : config,
    parseLoop false (pre ++ rest) e s
      = parseLoop false rest e (set_conf (fun _ => c') s).
Proof.
  intros Hpre. revert s.
  induction Hpre as [|x l Hx _ IH|o long v l _ IH]; intros s.
  - exists (conf s). destruct s; reflexivity.
  - destruct (IH s) as [c' Hc']. exists c'.
    simpl app. rewrite parseLoop_unknown by exact Hx. exact Hc'.
  - destruct (IH (set_conf (assign o (Some v)) s)) as [c' Hc']. exists c'.
    simpl app. rewrite parseLoop_option. exact Hc'.
Qed.

(** X4: parsing never throws and touches nothing but [conf].  It ends the
    program only with status 0, after the usage text, and exactly when a
    help flag stands where the loop reads an option: after a run of words
    that the [switch] does not know and of options with their operands.  A
    help flag that is the operand of an option is stored, not obeyed, and
    once [--] has been read as an option nothing ends the program, whatever
    follows. *)
Theorem parseLoop_outcome (e : env) (s : state) :
  (forall (building : bool) (l : list string),
     exists c' : config,
       parseLoop building l e s = Ok tt (set_conf (fun _ => c') s) \/
       (parseLoop building l e s
          = Exit 0 (printed usage (set_conf (fun _ => c') s)) /\
        building = false /\
        exists (pre : list string) (help : string) (post : list string),
          l = pre ++ help :: post /\ option_words pre /\
          is_help help = true)) /\
  (forall (pre : list string) (help : string) (post : list string),
     option_words pre -> is_help help = true ->
     exists c' : config,
       parseLoop false (pre ++ help :: post) e s
         = Exit 0 (printed usage (set_conf (fun _ => c') s))) /\
  (forall pre rest : list string,
     option_words pre ->
     exists c' : config,
       parseLoop false (pre ++ "--" :: rest) e s
         = Ok tt (set_conf (fun _ => c') s)).
Proof.
  split; [|split].
  - intros building l. destruct building.
    + eexists. left. rewrite parseLoop_building. reflexivity.
    + destruct (proj1 (parseLoop_false_exit l e) s)
        as [c' [Hok|(Hexit & Hhelp)]]; exists c'; [left; exact Hok|].
      right. split; [exact Hexit|]. split; [reflexivity|exact Hhelp].
  - intros pre help post Hpre Hhelp.
    destruct (parseLoop_option_words pre (help :: post) e s Hpre) as [c' Hc'].
    exists c'. rewrite Hc'. apply parseLoop_help, Hhelp.
  - intros pre rest Hpre.
    destruct (parseLoop_option_words pre ("--" :: rest) e s Hpre)
      as [c' Hc'].
    rewrite Hc'.
    change (parseLoop false ("--" :: rest) e (set_conf (fun _ => c') s))
      with (parseLoop true rest e (set_conf (fun _ => c') s)).
    rewrite parseLoop_building. eexists. reflexivity.
Qed.

Lemma parseLoop_outcome_witness :
  (exists c' : config,
     parseLoop false ["-r"; "--"; "--help"; "x"] (world (0, 0) "" "") state0
       = Exit 0 (printed usage (set_conf (fun _ => c') state0))) /\
  (exists c' : config,
     parseLoop false ["-b"; "main"; "--"; "--help"] (world (0, 0) "" "")
         state0
       = Ok tt (set_conf (fun _ => c') state0)).
Proof.
  destruct (parseLoop_outcome (world (0, 0) "" "") state0)
    as (_ & Hexit & Hcommand).
  split.
  - apply (Hexit ["-r"; "--"] "--help" ["x"]); [|reflexivity].
    apply (option_words_operand OptRepository false "--" []). constructor.
  - apply (Hcommand ["-b"; "main"] ["--help"]).
    apply (option_words_operand OptBranch false "main" []). constructor.
Defined.

(** X5: for an operand that [Number.parseInt] reads as the integer [n],
    below 2^53 in absolute value so that the quotient is computed exactly,
    the hours are [n / 100] rounded down and the minutes the remainder of
    [n] by 100, capped at 23 and 59 from above only: a number that is not
    negative gives a time of day, a negative one gives a negative hour. *)
Theorem parseTime_of_number (operand : option string) (n : Z) :
  JS.parseInt operand = JS.Num n ->
  - 2 ^ 53 < n < 2 ^ 53 ->
  parseTime operand
    = {| hours := JS.Num (Z.min (n / 100) 23);
         minutes := JS.Num (Z.min (Z.rem n 100) 59) |} /\
  (0 <= n ->
   0 <= Z.min (n / 100) 23 <= 23 /\ 0 <= Z.min (Z.rem n 100) 59 <= 59) /\
  (n < 0 ->
   Z.min (n / 100) 23 < 0 /\ -99 <= Z.min (Z.rem n 100) 59 <= 0).
Proof.
  intros Hn _. split; [unfold parseTime; rewrite Hn; reflexivity|].
  split; intros Hsign.
  - assert (0 <= n / 100) by (apply Z.div_pos; lia).
    assert (0 <= Z.rem n 100) by (apply Z.rem_nonneg; lia).
    lia.
  - assert (n / 100 < 0) by (apply Z.div_lt_upper_bound; lia).
    assert (Z.rem n 100 <= 0) by (apply Z.rem_nonpos; lia).
    assert (Z.abs (Z.rem n 100) < Z.abs 100) by (apply Z.rem_bound_abs; lia).
    lia.
Qed.

Lemma parseTime_of_number_witness :
  parseTime (Some "-130")
    = {| hours := JS.Num (-2); minutes := JS.Num (-30) |}.
Proof.
  destruct (parseTime_of_number (Some "-130") (-130) eq_refl) as [H _];
    [lia|].
  exact H.
Defined.

(** X6: the delay of the time-of-day mode, by the minutes that the clock is
    past the time of the check.  Before the time, or at it, the script waits
    until the time; up to twelve hours past it, the script waits until
    twelve hours after the time; more than twelve hours past it the delay is
    negative.  The delay is zero exactly at the time and twelve hours after
    it, and it never exceeds 23 hours and 59 minutes. *)
Theorem timeOfDayDelay_by_minutes (th tm nh nm : Z) :
  0 <= th <= 23 -> 0 <= tm <= 59 -> 0 <= nh <= 23 -> 0 <= nm <= 59 ->
  let past := minutes_past th tm nh nm in
  let wait := if past <=? 0 then - past else 720 - past in
  timeOfDayDelay {| hours := JS.Num th; minutes := JS.Num tm |} (nh, nm)
    = JS.Num (wait * 60000) /\
  (wait < 0 <-> 720 < past) /\
  (wait = 0 <-> past = 0 \/ past = 720) /\
  wait <= 1439.
Proof.
  intros Hth Htm Hnh Hnm. cbv zeta.
  unfold timeOfDayDelay, minutes_past; simpl.
  destruct (Z.ltb_spec th nh), (Z.ltb_spec tm nm), (Z.eqb_spec nh th),
    (Z.leb_spec (nh * 60 + nm - (th * 60 + tm)) 0);
    simpl; try lia; (split; [f_equal; lia|lia]).
Qed.

Lemma timeOfDayDelay_by_minutes_witness :
  timeOfDayDelay {| hours := JS.Num 2; minutes := JS.Num 0 |} (14, 1)
    = JS.Num (-60000).
Proof.
  destruct (timeOfDayDelay_by_minutes 2 0 14 1) as [H _]; try lia.
  exact H.
Defined.

(** ** Preparing the working tree *)

Lemma prepareWorkingTree_eq (e : env) (s : state) :
  prepareWorkingTree e s
    = try_catch (probeWorkingTree (conf s)) (cloneWorkingTree (conf s)) e s.
Proof. reflexivity. Qed.

(** Splits on the innermost undecided test of the goal. *)
Ltac split_innermost :=
  match goal with
  | |- context [match ?x with _ => _ end] =>
      lazymatch x with
      | context [match _ with _ => _ end] => fail
      | _ => destruct x eqn:?; simpl
      end
  end.

Lemma probeWorkingTree_exit_code (c : config) (e : env) (s s' : state) (code : Z) :
  probeWorkingTree c e s = Exit code s' -> code = 1.
Proof.
  unfold probeWorkingTree, execFileSync_git. js_unfold. simpl.
  repeat split_innermost; congruence.
Qed.

Lemma cloneWorkingTree_exit_code
    (c : config) (thrown : option string) (e : env) (s s' : state) (code : Z) :
  cloneWorkingTree c thrown e s = Exit code s' -> code = 1.
Proof.
  unfold cloneWorkingTree, execFileSync_git. js_unfold.
  destruct (bool_decide (thrown = Some "ENOENT")); simpl; [|congruence].
  destruct (JS.truthy (repository c)); simpl; [|congruence].
  repeat split_innermost; congruence.
Qed.

Lemma prepareWorkingTree_exit_code (e : env) (s s' : state) (code : Z) :
  prepareWorkingTree e s = Exit code s' -> code = 1.
Proof.
  rewrite prepareWorkingTree_eq. unfold try_catch.
  destruct (probeWorkingTree (conf s) e s) as [u s1|c1 s1|c1 s1] eqn:Hprobe.
  - discriminate.
  - intros [= -> _]. eapply probeWorkingTree_exit_code, Hprobe.
  - apply cloneWorkingTree_exit_code.
Qed.

(** X7: a path that exists and is no directory ends the program with status
    1 after one message on the error stream; the [catch] handler does not
    run, the directory is not changed and no git command runs. *)
Theorem prepareWorkingTree_not_directory (e : env) (s : state) :
  statSync e (path (conf s)) = Returns false ->
  prepareWorkingTree e s
    = Exit 1
        (record (LogError "Path exists, but is not a directory. Aborting.")
           (record (StatSync (path (conf s))) s)).
Proof.
  intros Hstat. unfold prepareWorkingTree. js_unfold. rewrite Hstat.
  reflexivity.
Qed.

(** X8: in an existing directory the script changes into it, fetches,
    checks the branch out and pulls.  When the checkout fails, a tracking
    checkout of [origin/<branch>] is tried in its place and the pull
    follows; when that fails as well, its error goes to the [catch]
    handler. *)
Theorem prepareWorkingTree_existing
    (e : env) (s : state) (b fetched pulled : string) :
  branch (conf s) = Some b ->
  statSync e (path (conf s)) = Returns true ->
  chdir_existing e = Returns tt ->
  git e ["fetch"] = Returns fetched ->
  git e ["pull"] = Returns pulled ->
  let entered :=
    record (ExecFileSync "git" ["fetch"])
      (record (Chdir (path (conf s))) (record (StatSync (path (conf s))) s)) in
  let tried := record (ExecFileSync "git" ["checkout"; b]) entered in
  prepareWorkingTree e s
    = match git e ["checkout"; b] with
      | Returns _ => Ok tt (record git_pull tried)
      | Throws _ =>
          let tracked :=
            record (ExecFileSync "git" ["checkout"; "-t"; "origin/" +:+ b])
              tried in
          match git e ["checkout"; "-t"; "origin/" +:+ b] with
          | Returns _ => Ok tt (record git_pull tracked)
          | Throws code =>
              cloneWorkingTree (conf s) code e tracked
          end
      end.
Proof.
  intros Hb Hstat Hchdir Hfetch Hpull.
  unfold prepareWorkingTree, cloneWorkingTree, execFileSync_git.
  js_unfold. rewrite Hstat, Hb. simpl. rewrite Hchdir, Hfetch.
  destruct (git e ["checkout"; b]); simpl.
  - rewrite Hpull. reflexivity.
  - destruct (git e ["checkout"; "-t"; "origin/" +:+ b]); simpl.
    + rewrite Hpull. reflexivity.
    + reflexivity.
Qed.

Lemma cloneWorkingTree_other_error (c : config) (code : option string)
    (e : env) (s : state) :
  code <> Some "ENOENT" ->
  cloneWorkingTree c code e s
    = Exit 1 (record (LogError "Encountered an error accessing path") s).
Proof.
  intros Hcode. unfold cloneWorkingTree. js_unfold.
  rewrite bool_decide_eq_false_2 by exact Hcode. reflexivity.
Qed.

Lemma cloneWorkingTree_no_repository (c : config) (e : env) (s : state) :
  JS.truthy (repository c) = false ->
  cloneWorkingTree c (Some "ENOENT") e s
    = Exit 1
        (record
           (LogError "Failed to pull repository and no repostiory URI given.")
           s).
Proof.
  intros Hrepo. unfold cloneWorkingTree. js_unfold. rewrite Hrepo.
  reflexivity.
Qed.

Lemma cloneWorkingTree_clones (c : config) (r p b : string) (e : env) (s : state) :
  repository c = Some r -> r <> "" -> path c = Some p -> branch c = Some b ->
  cloneWorkingTree c (Some "ENOENT") e s
    = let cloned :=
        record (ExecFileSync "git" ["clone"; r; p; "--branch"; b]) s in
      match git e ["clone"; r; p; "--branch"; b] with
      | Throws code => Throw code cloned
      | Returns _ =>
          match chdir_cloned e with
          | Returns _ => Ok tt (record (Chdir (Some p)) cloned)
          | Throws code => Throw code (record (Chdir (Some p)) cloned)
          end
      end.
Proof.
  intros Hr Hne Hp Hb. unfold cloneWorkingTree, execFileSync_git. js_unfold.
  rewrite Hr, Hp, Hb. simpl.
  apply String.eqb_neq in Hne. rewrite Hne. simpl.
  destruct (git e ["clone"; r; p; "--branch"; b]); [|reflexivity].
  destruct (chdir_cloned e) as [[]|]; reflexivity.
Qed.

(** X9: an error in the [try] block whose code is not [ENOENT] ends the
    program with status 1 after a message, and so does an [ENOENT] when no
    repository URI is configured: nothing is cloned. *)
Theorem prepareWorkingTree_reports_failure
    (e : env) (s s1 : state) (code : option string) :
  probeWorkingTree (conf s) e s = Throw code s1 ->
  (code <> Some "ENOENT" ->
   prepareWorkingTree e s
     = Exit 1 (record (LogError "Encountered an error accessing path") s1)) /\
  (code = Some "ENOENT" -> JS.truthy (repository (conf s)) = false ->
   prepareWorkingTree e s
     = Exit 1
         (record
            (LogError "Failed to pull repository and no repostiory URI given.")
            s1)).
Proof.
  intros Hprobe. rewrite prepareWorkingTree_eq. unfold try_catch.
  rewrite Hprobe. split.
  - intros Hcode. apply cloneWorkingTree_other_error, Hcode.
  - intros -> Hrepo. apply cloneWorkingTree_no_repository, Hrepo.
Qed.

(** X10: when the path does not exist and a repository URI is configured,
    the script clones the repository into the path with the configured
    branch and changes into it, without any fetch, checkout or pull; an
    error of the clone or of the change of directory is not caught. *)
Theorem prepareWorkingTree_clones_missing_path
    (e : env) (s : state) (r p b : string) :
  repository (conf s) = Some r -> r <> "" ->
  path (conf s) = Some p -> branch (conf s) = Some b ->
  statSync e (Some p) = Throws (Some "ENOENT") ->
  let cloned :=
    record (ExecFileSync "git" ["clone"; r; p; "--branch"; b])
      (record (StatSync (Some p)) s) in
  prepareWorkingTree e s
    = match git e ["clone"; r; p; "--branch"; b] with
      | Throws code => Throw code cloned
      | Returns _ =>
          match chdir_cloned e with
          | Returns _ => Ok tt (record (Chdir (Some p)) cloned)
          | Throws code => Throw code (record (Chdir (Some p)) cloned)
          end
      end.
Proof.
  intros Hr Hne Hp Hb Hstat. cbv zeta.
  rewrite prepareWorkingTree_eq. unfold try_catch.
  assert (Hprobe : probeWorkingTree (conf s) e s
                   = Throw (Some "ENOENT") (record (StatSync (Some p)) s)).
  { unfold probeWorkingTree. js_unfold. rewrite Hp, Hstat. reflexivity. }
  rewrite Hprobe.
  rewrite (cloneWorkingTree_clones (conf s) r p b) by assumption.
  reflexivity.
Qed.

(** X11: the [catch] handler cannot tell where an [ENOENT] comes from.  When
    the directory exists and the script has changed into it, and the fetch
    then fails with the code [ENOENT], the script goes on to clone the
    repository into the path as if the path were missing. *)
Theorem prepareWorkingTree_takes_git_ENOENT_for_missing_path
    (e : env) (s : state) (r p b : string) :
  repository (conf s) = Some r -> r <> "" ->
  path (conf s) = Some p -> branch (conf s) = Some b ->
  statSync e (Some p) = Returns true ->
  chdir_existing e = Returns tt ->
  git e ["fetch"] = Throws (Some "ENOENT") ->
  let entered :=
    record (ExecFileSync "git" ["fetch"])
      (record (Chdir (Some p)) (record (StatSync (Some p)) s)) in
  let cloned :=
    record (ExecFileSync "git" ["clone"; r; p; "--branch"; b]) entered in
  prepareWorkingTree e s
    = match git e ["clone"; r; p; "--branch"; b] with
      | Throws code => Throw code cloned
      | Returns _ =>
          match chdir_cloned e with
          | Returns _ => Ok tt (record (Chdir (Some p)) cloned)
          | Throws code => Throw code (record (Chdir (Some p)) cloned)
          end
      end.
Proof.
  intros Hr Hne Hp Hb Hstat Hchdir Hfetch. cbv zeta.
  rewrite prepareWorkingTree_eq. unfold try_catch.
  assert (Hprobe :
    probeWorkingTree (conf s) e s
      = Throw (Some "ENOENT")
          (record (ExecFileSync "git" ["fetch"])
             (record (Chdir (Some p)) (record (StatSync (Some p)) s)))).
  { unfold probeWorkingTree, execFileSync_git. js_unfold.
    rewrite Hp, Hstat. simpl. rewrite Hchdir, Hfetch. reflexivity. }
  rewrite Hprobe.
  rewrite (cloneWorkingTree_clones (conf s) r p b) by assumption.
  reflexivity.
Qed.

(** ** Properties that no handler breaks *)

Section Keeps.

Variable P : state -> Prop.

Lemma keeps_ret {A : Type} (a : A) : keeps P (ret a).
Proof. intros e s H. exact H. Qed.

Lemma keeps_bind {A B : Type} (m : M A) (k : A -> M B) :
  keeps P m -> (forall a, keeps P (k a)) -> keeps P (bind m k).
Proof.
  intros Hm Hk e s H. unfold bind. specialize (Hm e s H).
  destruct (m e s) as [a s'|c s'|c s']; simpl in *; [|exact Hm|exact Hm].
  apply Hk, Hm.
Qed.

Lemma keeps_try_catch {A : Type} (m : M A) (h : option string -> M A) :
  keeps P m -> (forall c, keeps P (h c)) -> keeps P (try_catch m h).
Proof.
  intros Hm Hh e s H. unfold try_catch. specialize (Hm e s H).
  destruct (m e s) as [a s'|c s'|c s']; simpl in *; [exact Hm|exact Hm|].
  apply Hh, Hm.
Qed.

Lemma keeps_gets {A : Type} (f : state -> A) : keeps P (gets f).
Proof. intros e s H. exact H. Qed.

Lemma keeps_ask {A : Type} (f : env -> answer A) : keeps P (ask f).
Proof. intros e s H. unfold ask. destruct (f e); exact H. Qed.

Lemma keeps_throw {A : Type} (c : option string) : keeps P (@throw A c).
Proof. intros e s H. exact H. Qed.

Lemma keeps_process_exit {A : Type} (c : Z) : keeps P (@process_exit A c).
Proof. intros e s H. exact H. Qed.

Lemma keeps_modify (f : state -> state) :
  (forall s, P s -> P (f s)) -> keeps P (modify f).
Proof. intros Hf e s H. apply Hf, H. Qed.

Lemma keeps_when (b : bool) (m : M unit) : keeps P m -> keeps P (when b m).
Proof. intros Hm. destruct b; [exact Hm|apply keeps_ret]. Qed.

Lemma keeps_forEach {A : Type} (f : A -> M unit) (l : list A) :
  (forall a, keeps P (f a)) -> keeps P (forEach f l).
Proof.
  intros Hf. induction l as [|a l IH]; simpl.
  - apply keeps_ret.
  - apply keeps_bind; [apply Hf|intros _; exact IH].
Qed.

End Keeps.

Section Steady.

Variable P : state -> Prop.
Hypothesis HP : steady P.

Lemma keeps_emit (a : action) : keeps P (emit a).
Proof. apply keeps_modify. intros s. apply (steady_record P HP). Qed.

Lemma keeps_execFileSync_git (argv : list (option string)) :
  keeps P (execFileSync_git argv).
Proof.
  unfold execFileSync_git. cbv zeta.
  apply keeps_bind; [apply keeps_emit|intros _; apply keeps_ask].
Qed.

Lemma keeps_on_exit (p : pid) (l : listener) : keeps P (on_exit p l).
Proof. apply keeps_modify. intros s. apply (steady_children P HP). Qed.

Lemma keeps_startCommand : keeps P startCommand.
Proof.
  unfold startCommand. apply keeps_bind; [apply keeps_gets|intros c].
  destruct (command c) as [cmd|]; [|apply keeps_ret].
  apply keeps_bind; [apply keeps_ask|intros _].
  apply keeps_bind; [apply keeps_gets|intros p].
  apply keeps_bind; [apply keeps_emit|intros _].
  apply keeps_bind;
    [apply keeps_modify; intros s; apply (steady_spawned P HP)|intros _].
  apply keeps_bind;
    [apply keeps_modify; intros s; apply (steady_children P HP)|intros _].
  apply keeps_bind;
    [apply keeps_modify; intros s; apply (steady_commandProcess P HP)|intros _].
  apply keeps_on_exit.
Qed.

End Steady.

Section Stable.

Variable P : state -> Prop.
Hypothesis HS : stable P.

Let HP : steady P := stable_steady P HS.

Lemma keeps_scheduleUpdateCheck : keeps P scheduleUpdateCheck.
Proof.
  intros e s H. rewrite scheduleUpdateCheck_eq. simpl. unfold scheduled.
  apply (stable_arm P HS (clock e)
           (record (SetTimeout (nextDelay (conf s) (clock e)))
              (record (Log (Scheduling (nextDelay (conf s) (clock e)))) s))).
  apply (steady_record P HP), (steady_record P HP), H.
Qed.

Lemma keeps_update : keeps P update.
Proof.
  unfold update. apply keeps_bind; [apply keeps_gets|intros h].
  destruct h as [p|].
  - apply keeps_bind; [apply (keeps_on_exit P HP)|intros _].
    apply keeps_bind; [apply keeps_gets|intros c].
    apply keeps_bind; [apply keeps_ask|intros _]. apply (keeps_emit P HP).
  - apply keeps_bind; [apply (keeps_execFileSync_git P HP)|intros _].
    apply keeps_bind; [apply (keeps_emit P HP)|intros _].
    apply keeps_bind; [apply (keeps_startCommand P HP)|intros _].
    apply keeps_scheduleUpdateCheck.
Qed.

Lemma keeps_checkForUpdates : keeps P checkForUpdates.
Proof.
  unfold checkForUpdates.
  apply keeps_bind; [apply (keeps_emit P HP)|intros _].
  apply keeps_bind; [apply (keeps_execFileSync_git P HP)|intros _].
  apply keeps_bind; [apply (keeps_execFileSync_git P HP)|intros head_out].
  apply keeps_bind; [apply (keeps_execFileSync_git P HP)|intros upstream_out].
  apply keeps_bind; [apply (keeps_emit P HP)|intros _].
  apply keeps_bind; [apply (keeps_emit P HP)|intros _].
  destruct (negb _).
  - apply keeps_bind; [apply (keeps_emit P HP)|intros _]. apply keeps_update.
  - apply keeps_scheduleUpdateCheck.
Qed.

Lemma keeps_run_listener (l : listener) : keeps P (run_listener l).
Proof.
  destruct l; simpl.
  - apply keeps_modify. intros s. apply (steady_commandProcess P HP).
  - apply keeps_bind; [|intros _; apply keeps_update].
    apply keeps_modify. intros s. apply (steady_commandProcess P HP).
Qed.

(** A stable property holds after every turn of the event loop, however
    the turn ends. *)
Lemma stable_dispatch (e : env) (ev : event) (s : state) (o : outcome) :
  P s -> dispatch e ev s = Some o -> P (final o).
Proof.
  intros H Hstep.
  assert (Hfinal : forall r : result unit, final (finish r) = state_of r)
    by (intros [? ?|? ?|? ?]; reflexivity).
  destruct ev as [i|p]; unfold dispatch in Hstep.
  - destruct (timers s !! i); [|discriminate]. injection Hstep as <-.
    rewrite Hfinal. apply keeps_checkForUpdates.
    apply (steady_record P HP), (stable_fire P HS), H.
  - destruct (children s !! p) as [ls|]; [|discriminate].
    injection Hstep as <-. rewrite Hfinal.
    apply keeps_forEach; [apply keeps_run_listener|].
    apply (steady_record P HP), (steady_children P HP), H.
Qed.

End Stable.
Lemma bind_Ok {A B : Type} (m : M A) (k : A -> M B) (e : env) (s s' : state) (b : B) :
  bind m k e s = Ok b s' ->
  exists a s1, m e s = Ok a s1 /\ k a e s1 = Ok b s'.
Proof.
  unfold bind. destruct (m e s) as [a s1|c s1|c s1]; [|discriminate..].
  intros H. exists a, s1. split; [reflexivity|exact H].
Qed.

Lemma bind_Exit {A B : Type} (m : M A) (k : A -> M B) (e : env) (s s' : state)
    (code : Z) :
  bind m k e s = Exit code s' ->
  m e s = Exit code s' \/
  exists a s1, m e s = Ok a s1 /\ k a e s1 = Exit code s'.
Proof.
  unfold bind. destruct (m e s) as [a s1|c s1|c s1]; [| |discriminate].
  - intros H. right. exists a, s1. split; [reflexivity|exact H].
  - intros [= -> ->]. left. reflexivity.
Qed.

(** Closes [keeps P m] for straight-line script code, given [stable P]. *)
Ltac keep HP :=
  repeat first
    [ assumption
    | apply keeps_bind; [|intros ?]
    | apply keeps_try_catch; [|intros ?]
    | apply keeps_when
    | apply keeps_ret
    | apply keeps_gets
    | apply keeps_ask
    | apply keeps_throw
    | apply keeps_process_exit
    | apply (keeps_emit _ HP)
    | apply (keeps_execFileSync_git _ HP)
    | apply keeps_forEach; intros ?
    | match goal with
      | |- keeps _ (match ?x with _ => _ end) => destruct x
      end ].

Lemma stable_valid : stable (fun s => validConfiguration (conf s) = true).
Proof. constructor; [constructor|..]; intros; assumption. Qed.

Lemma stable_configured_delays : stable configured_delays.
Proof.
  constructor; [constructor|..]; unfold configured_delays; simpl; intros;
    try assumption.
  - apply Forall_app. split; [assumption|].
    apply Forall_singleton. exists now. reflexivity.
  - apply Forall_delete. assumption.
Qed.

Lemma stable_conf (c : config) : stable (fun s => conf s = c).
Proof. constructor; [constructor|..]; intros; assumption. Qed.

Lemma derivePath_valid (c : config) :
  validConfiguration c = true -> validConfiguration (derivePath c) = true.
Proof.
  unfold validConfiguration, derivePath.
  destruct (JS.truthy (path c)) eqn:Hp, (JS.truthy (repository c)) eqn:Hr;
    simpl; rewrite ?Hp, ?Hr; simpl; auto.
Qed.

Lemma setUp_valid (argv : list string) (e : env) (s s' : state) :
  setUp argv e s = Ok tt s' -> validConfiguration (conf s') = true.
Proof.
  unfold setUp. intros H.
  apply bind_Ok in H as (u & s1 & _ & H).
  apply bind_Ok in H as (valid & s2 & Hvalid & H).
  rewrite validateConfiguration_eq in Hvalid. injection Hvalid as <- <-.
  fold (validConfiguration (conf s1)) in H.
  destruct (validConfiguration (conf s1)) eqn:Hv.
  2:{ apply bind_Ok in H as (? & ? & Hexit & _). simpl in Hexit.
      unfold bind, console_log, emit, modify in Hexit.
      rewrite printUsage_eq in Hexit. discriminate Hexit. }
  apply (derivePath_valid _) in Hv.
  apply bind_Ok in H as (? & s3 & Hs3 & H). simpl in Hs3.
  injection Hs3 as _ <-.
  assert (Hkeep : keeps (fun s => validConfiguration (conf s) = true)
    (let* c := gets conf in
     console_log (ConfigEcho c) >>
     match command c with
     | Some cmd => console_log (Line ("command: " +:+ commandString cmd))
     | None => ret tt
     end >>
     prepareWorkingTree)).
  { unfold prepareWorkingTree, console_log, console_error.
    keep (stable_steady _ stable_valid). }
  specialize (Hkeep e (set_conf derivePath s1) Hv).
  rewrite H in Hkeep. exact Hkeep.
Qed.
Lemma main_valid (argv : list string) (e : env) (s : state) :
  main argv e = Running s ->
  validConfiguration (conf s) = true /\ configured_delays s.
Proof.
  unfold main, script. intros H.
  destruct (framed_setUp argv e state0) as (_ & _ & _ & Hts & _).
  destruct (setUp argv e state0) as [[] s1|code s1|code s1] eqn:HsetUp;
    unfold bind in H; rewrite HsetUp in H; [|discriminate..].
  simpl in Hts.
  assert (Hfinal : forall r : result unit, finish r = Running s -> state_of r = s)
    by (intros [? ?|? ?|? ?]; simpl; congruence).
  apply Hfinal in H. fold (bind startCommand (fun _ => scheduleUpdateCheck) e s1) in H.
  rewrite <- H. split.
  - apply (keeps_bind _ _ _ (keeps_startCommand _ (stable_steady _ stable_valid))
             (fun _ => keeps_scheduleUpdateCheck _ stable_valid)).
    apply (setUp_valid argv e state0), HsetUp.
  - apply (keeps_bind _ _ _ (keeps_startCommand _ (stable_steady _ stable_configured_delays))
             (fun _ => keeps_scheduleUpdateCheck _ stable_configured_delays)).
    unfold configured_delays. rewrite Hts. constructor.
Qed.

Lemma reachable_valid (s : state) :
  reachable s -> validConfiguration (conf s) = true /\ configured_delays s.
Proof.
  induction 1 as [argv e s Hmain|e ev s s' Hreach [IH1 IH2] Hstep].
  - apply (main_valid argv e s Hmain).
  - split.
    + apply (stable_dispatch _ stable_valid e ev s _ IH1 Hstep).
    + apply (stable_dispatch _ stable_configured_delays e ev s _ IH2 Hstep).
Qed.

(** X12: after the top level the configuration never changes: no turn of the
    event loop writes [conf].  Hence in every reachable state the
    configuration is one that the validation accepts, and every armed timer
    carries a delay computed from it. *)
Theorem configuration_is_fixed :
  (forall (e : env) (ev : event) (s : state) (o : outcome),
     dispatch e ev s = Some o -> conf (final o) = conf s) /\
  (forall s : state,
     reachable s ->
     validConfiguration (conf s) = true /\ configured_delays s).
Proof.
  split.
  - intros e ev s o Hstep.
    apply (stable_dispatch _ (stable_conf (conf s)) e ev s o eq_refl Hstep).
  - apply reachable_valid.
Qed.

Lemma configuration_is_fixed_witness :
  validConfiguration (conf sample_boot) = true /\
  conf (final (Running sample_signalled)) = conf sample_boot.
Proof.
  destruct configuration_is_fixed as [Hconf Hvalid].
  split.
  - apply Hvalid.
    apply (reachable_main sample_argv (world (3, 0) "1111" "1111")).
    vm_compute. reflexivity.
  - apply (Hconf (world (2, 0) "1111" "2222") (TimerFires 0)).
    vm_compute. reflexivity.
Defined.



(** X14: when the top level ends the program, the status is 0 or 1, and it
    is 0 only for a help flag on the command line.  At that point no command
    has been started and no timer armed, and nothing has been done beyond
    the set-up: printing, probing the path, changing the directory and git
    commands. *)
Theorem main_exit_status (argv : list string) (e : env) (code : Z) (s : state) :
  main argv e = Exited code s ->
  (code = 0 \/ code = 1) /\
  (code = 0 -> exists help, In help (tail argv) /\ is_help help = true) /\
  commandProcess s = None /\ children s = ∅ /\ timers s = [] /\
  forallb is_setup (history s) = true.
Proof.
  unfold main, script. intros H.
  destruct (framed_setUp argv e state0) as (Hh & Hch & _ & Hts & t & Ht & Hall).
  destruct (setUp argv e state0) as [[] s1|c s1|c s1] eqn:HsetUp;
    unfold bind in H; rewrite HsetUp in H; simpl in H.
  - rewrite startCommand_eq in H.
    destruct (command (conf s1)) as [cmd|];
      [destruct (spawn e (name cmd) (args cmd))|];
      rewrite ?scheduleUpdateCheck_eq in H; discriminate H.
  - injection H as -> ->. simpl in *.
    assert (Hcode : (code = 0 /\
                     exists help, In help (tail argv) /\ is_help help = true)
                    \/ code = 1).
    { unfold setUp, parseArguments in HsetUp.
      apply bind_Exit in HsetUp as [Hparse|(u & s2 & _ & HsetUp)].
      { destruct (proj1 (parseLoop_false_outcome (tail argv) e) state0)
          as [c' [Hok|(Hexit & Hhelp)]]; [congruence|].
        left. split; [congruence|exact Hhelp]. }
      right.
      apply bind_Exit in HsetUp as [Hv|(valid & s3 & _ & HsetUp)].
      { rewrite validateConfiguration_eq in Hv. discriminate Hv. }
      apply bind_Exit in HsetUp as [Hwhen|(u' & s4 & _ & HsetUp)].
      { destruct valid; simpl in Hwhen; [discriminate|].
        unfold bind, console_log, emit, modify in Hwhen.
        rewrite printUsage_eq in Hwhen. unfold process_exit in Hwhen.
        congruence. }
      apply bind_Exit in HsetUp as [Hx|(c0 & s5 & _ & HsetUp)];
        [discriminate|].
      apply bind_Exit in HsetUp as [Hx|(u5 & s6 & _ & HsetUp)];
        [discriminate|].
      apply bind_Exit in HsetUp as [Hx|(u6 & s7 & _ & HsetUp)].
      { destruct (command c0); discriminate Hx. }
      eapply prepareWorkingTree_exit_code, HsetUp. }
    split; [destruct Hcode as [[-> _]| ->]; auto|].
    split.
    { intros ->. destruct Hcode as [[_ Hhelp]|Hone]; [exact Hhelp|lia]. }
    rewrite Ht. auto.
  - discriminate H.
Qed.

Lemma main_exit_status_witness :
  exists help : string,
    In help ["git-auto-updater"; "--branch"; "main"; "-h"] /\
    is_help help = true.
Proof.
  destruct (main_exit_status
              ["node"; "git-auto-updater"; "--branch"; "main"; "-h"]
              (world (0, 0) "" "") 0
              (printed usage (set_conf (set_branch (Some "main")) state0))
              eq_refl) as (_ & Hhelp & _).
  exact (Hhelp eq_refl).
Defined.
(** ** The life of the child *)

(** X15: the supervisor runs at most one child at a time.  In every
    reachable state either there is no handle and no child, or the handle is
    the one child that is alive, the one and only process started and not
    yet seen to exit, and a command is configured. *)
Theorem at_most_one_child (s : state) :
  reachable s ->
  (commandProcess s = None /\ children s = ∅ /\ running (history s) = ∅) \/
  (exists (p : pid) (ls : list listener),
     commandProcess s = Some p /\ children s = {[p := ls]} /\
     running (history s) = {[p]} /\ (p < spawned s)%nat /\
     is_Some (command (conf s))).
Proof.
  intros Hreach.
  destruct (reachable_consistent s Hreach)
    as [Hphase Hcmd Hrun _ _ _ Hfr _ _].
  assert (Hcases :
    (commandProcess s = None /\ children s = ∅) \/
    (exists p ls, commandProcess s = Some p /\ children s = {[p := ls]})).
  { destruct Hphase as [[_ [Hnone|(p & Hh & Hch)]] | (p & _ & Hh & Hch)].
    - left. exact Hnone.
    - right. exists p, [ClearHandle]. split; assumption.
    - right. exists p, [ClearHandle; ClearHandleAndUpdate]. split; assumption. }
  destruct Hcases as [[Hh Hch]|(p & ls & Hh & Hch)].
  - left. split; [exact Hh|]. split; [exact Hch|].
    rewrite Hrun, Hch. apply dom_empty_L.
  - right. exists p, ls. split; [exact Hh|]. split; [exact Hch|].
    rewrite Hch, dom_singleton_L in Hrun, Hfr.
    split; [exact Hrun|]. split; [apply Hfr; set_solver|].
    apply (Hcmd p Hh).
Qed.

Lemma at_most_one_child_witness :
  exists (p : pid) (ls : list listener),
    commandProcess sample_boot = Some p /\ children sample_boot = {[p := ls]}.
Proof.
  destruct (at_most_one_child sample_boot)
    as [(Hnone & _)|(p & ls & Hh & Hch & _)].
  - apply (reachable_main sample_argv (world (3, 0) "1111" "1111")).
    vm_compute. reflexivity.
  - vm_compute in Hnone. discriminate Hnone.
  - exists p, ls. split; assumption.
Defined.

(** X16: a command that exits on its own is not restarted.  Its exit clears
    the handle and nothing else; a check that finds no new revision leaves
    the supervisor without a child; the next check that finds one pulls at
    once, without sending a signal, and starts the command again. *)
Theorem exited_command_waits_for_update (s : state) (p : pid) (d : JS.number) :
  reachable s ->
  commandProcess s = Some p ->
  timers s = [d] ->
  let s1 :=
    set_commandProcess None
      (record (ChildExited p) (set_children (delete p) s)) in
  exists cmd : command_spec,
    command (conf s) = Some cmd /\
    (forall e : env, dispatch e (ChildExits p) s = Some (Running s1)) /\
    children s1 = ∅ /\
    (forall (e : env) (fetched head_out upstream_out : string),
       git e ["fetch"] = Returns fetched ->
       git e ["rev-parse"; "HEAD"] = Returns head_out ->
       git e ["rev-parse"; "HEAD@{u}"] = Returns upstream_out ->
       JS.slice0 40 head_out = JS.slice0 40 upstream_out ->
       exists s2 : state,
         dispatch e (TimerFires 0) s1 = Some (Running s2) /\
         commandProcess s2 = None /\ children s2 = ∅) /\
    (forall (e : env) (fetched head_out upstream_out pulled : string),
       git e ["fetch"] = Returns fetched ->
       git e ["rev-parse"; "HEAD"] = Returns head_out ->
       git e ["rev-parse"; "HEAD@{u}"] = Returns upstream_out ->
       JS.slice0 40 head_out <> JS.slice0 40 upstream_out ->
       git e ["pull"] = Returns pulled ->
       spawn e (name cmd) (args cmd) = Returns tt ->
       let delay := nextDelay (conf s) (clock e) in
       exists s2 : state,
         dispatch e (TimerFires 0) s1 = Some (Running s2) /\
         history s2 = history s ++
           [ ChildExited p;
             TimerFired;
             Log (Line "Checking for update...");
             ExecFileSync "git" ["fetch"];
             ExecFileSync "git" ["rev-parse"; "HEAD"];
             ExecFileSync "git" ["rev-parse"; "HEAD@{u}"];
             Log (Line ("Current revision: " +:+ JS.slice0 40 head_out));
             Log (Line ("Latest revision: " +:+ JS.slice0 40 upstream_out));
             Log (Line "Updating...");
             git_pull;
             Log (Line "Updated.");
             Spawn (spawned s) (name cmd) (args cmd) "inherit";
             Log (Scheduling delay);
             SetTimeout delay ] /\
         commandProcess s2 = Some (spawned s) /\
         children s2 = {[spawned s := [ClearHandle]]}).
Proof.
  intros Hreach Hh Ht s1.
  destruct (reachable_consistent s Hreach)
    as [Hphase Hcmd _ _ _ _ _ _ _].
  destruct (Hcmd p Hh) as [cmd Hcommand].
  assert (Hch : children s = {[p := [ClearHandle]]}).
  { destruct Hphase as [[_ [[Hnone _]|(p0 & Hp0 & Hch)]] | (p0 & Ht0 & _)];
      congruence. }
  assert (Hch1 : children s1 = ∅).
  { unfold s1. simpl. rewrite Hch. apply delete_singleton_eq. }
  assert (Ht1 : timers s1 !! 0%nat = Some d).
  { unfold s1. simpl. rewrite Ht. reflexivity. }
  exists cmd. split; [exact Hcommand|]. split.
  { intros e. unfold dispatch. rewrite Hch, lookup_singleton_eq. reflexivity. }
  split; [exact Hch1|]. split.
  - intros e fetched head_out upstream_out Hfetch Hhead Hup Hsame.
    unfold dispatch. rewrite Ht1, checkForUpdates_eq. cbv zeta.
    rewrite Hfetch, Hhead, Hup, Hsame, String.eqb_refl.
    rewrite scheduleUpdateCheck_eq.
    eexists. split; [reflexivity|]. split; [reflexivity|exact Hch1].
  - intros e fetched head_out upstream_out pulled
      Hfetch Hhead Hup Hne Hpull Hspawn delay.
    apply String.eqb_neq in Hne.
    unfold dispatch. rewrite Ht1, checkForUpdates_eq. cbv zeta.
    rewrite Hfetch, Hhead, Hup, Hne, update_eq.
    cbn [commandProcess record set_timers s1 set_commandProcess].
    rewrite Hpull. unfold bind. rewrite startCommand_eq.
    cbn [conf record set_timers s1 set_commandProcess set_children].
    rewrite Hcommand, Hspawn, scheduleUpdateCheck_eq.
    eexists. split; [reflexivity|].
    split; [simpl; repeat rewrite <- app_assoc; reflexivity|].
    split; [reflexivity|].
    simpl. rewrite Hch, delete_singleton_eq. apply insert_empty.
Qed.
Lemma exited_command_waits_for_update_witness :
  exists s1 : state,
    dispatch (world (4, 0) "1111" "1111") (ChildExits 0%nat) sample_boot
      = Some (Running s1) /\
    children s1 = ∅.
Proof.
  edestruct (exited_command_waits_for_update sample_boot 0%nat
               (JS.Num 39600000)) as (cmd & _ & Hexit & Hch & _).
  - apply (reachable_main sample_argv (world (3, 0) "1111" "1111")).
    vm_compute. reflexivity.
  - vm_compute. reflexivity.
  - vm_compute. reflexivity.
  - eexists. split; [apply Hexit|exact Hch].
Defined.

(** ** Failures in the loop *)

(** X17: a git command that fails during a check is not caught.  When the
    fetch or one of the two [rev-parse] calls throws in the turn of a timer,
    the turn ends with an uncaught exception: the child and its handle are
    left as they were, the timer that fired is gone and no other is armed in
    its place, and nothing has been pulled. *)
Theorem failed_check_ends_the_supervisor
    (e : env) (s : state) (i : nat) (d : JS.number) :
  timers s !! i = Some d ->
  (exists code, git e ["fetch"] = Throws code) \/
  ((exists out, git e ["fetch"] = Returns out) /\
   ((exists code, git e ["rev-parse"; "HEAD"] = Throws code) \/
    ((exists out, git e ["rev-parse"; "HEAD"] = Returns out) /\
     exists code, git e ["rev-parse"; "HEAD@{u}"] = Throws code))) ->
  exists s' : state,
    dispatch e (TimerFires i) s = Some (Crashed s') /\
    commandProcess s' = commandProcess s /\
    children s' = children s /\
    timers s' = delete i (timers s) /\
    exists t : list action,
      history s' = history s ++ TimerFired :: t /\
      forallb is_setup t = true /\
      ~ In git_pull t.
Proof.
  intros Hd Hfail. unfold dispatch. rewrite Hd, checkForUpdates_eq. cbv zeta.
  destruct Hfail as [[code ->]|[[out ->] [[code ->]|[[out' ->] [code ->]]]]];
    (eexists; split; [reflexivity|]; repeat (split; [reflexivity|]);
     eexists; split;
     [simpl; repeat rewrite <- app_assoc; reflexivity|];
     split; [reflexivity|];
     unfold git_pull; simpl; intros Hin;
     repeat destruct Hin as [Hin|Hin]; try discriminate Hin; exact Hin).
Qed.

Lemma failed_check_ends_the_supervisor_witness :
  exists s' : state,
    dispatch
      {| git := fun _ => Throws None; statSync := fun _ => Returns true;
         chdir_existing := Returns tt; chdir_cloned := Returns tt;
         spawn := fun _ _ => Returns tt; kill := fun _ _ => Returns tt;
         clock := (0, 0) |}
      (TimerFires 0) sample_boot = Some (Crashed s') /\
    children s' = children sample_boot.
Proof.
  edestruct (failed_check_ends_the_supervisor
    {| git := fun _ => Throws None; statSync := fun _ => Returns true;
       chdir_existing := Returns tt; chdir_cloned := Returns tt;
       spawn := fun _ _ => Returns tt; kill := fun _ _ => Returns tt;
       clock := (0, 0) |} sample_boot 0%nat (JS.Num 39600000))
    as (s' & Hstep & _ & Hch & _).
  - vm_compute. reflexivity.
  - left. exists None. reflexivity.
  - exists s'. split; [exact Hstep|exact Hch].
Defined.

(** X18: when the pull fails after the child was stopped for an update, the
    exception is not caught: the command has not been started again and no
    timer is armed. *)
Theorem failed_pull_leaves_command_stopped
    (e : env) (s : state) (p : pid) (code : option string) :
  awaiting_exit p s ->
  git e ["pull"] = Throws code ->
  let s' :=
    record git_pull
      (set_commandProcess None
         (set_commandProcess None
            (record (ChildExited p) (set_children (delete p) s)))) in
  dispatch e (ChildExits p) s = Some (Crashed s') /\
  children s' = ∅ /\ commandProcess s' = None /\ timers s' = [] /\
  history s' = history s ++ [ChildExited p; git_pull].
Proof.
  intros (Ht & Hh & Hch) Hpull s'. split.
  - unfold dispatch. rewrite Hch, lookup_singleton_eq.
    rewrite listeners_of_awaited_child, update_eq.
    cbn [commandProcess set_commandProcess]. rewrite Hpull. reflexivity.
  - unfold s'. simpl. rewrite Hch, Ht, delete_singleton_eq, <- app_assoc.
    repeat split; reflexivity.
Qed.

Lemma failed_pull_leaves_command_stopped_witness :
  exists s' : state,
    dispatch
      {| git := fun _ => Throws None; statSync := fun _ => Returns true;
         chdir_existing := Returns tt; chdir_cloned := Returns tt;
         spawn := fun _ _ => Returns tt; kill := fun _ _ => Returns tt;
         clock := (0, 0) |}
      (ChildExits 0%nat) sample_signalled = Some (Crashed s') /\
    children s' = ∅.
Proof.
  edestruct (failed_pull_leaves_command_stopped
    {| git := fun _ => Throws None; statSync := fun _ => Returns true;
       chdir_existing := Returns tt; chdir_cloned := Returns tt;
       spawn := fun _ _ => Returns tt; kill := fun _ _ => Returns tt;
       clock := (0, 0) |} sample_signalled 0%nat None)
    as (Hstep & Hch & _).
  - vm_compute. repeat split; reflexivity.
  - reflexivity.
  - eexists. split; [exact Hstep|exact Hch].
Defined.
(** ** The interval-only revision, in general *)

(** X19: the interval-only revision refuses every configuration without a
    repository URI, and whatever it accepts is accepted, with the same
    derived path, by the revision with the time of day; an accepted
    configuration has a repository URI, a path and an integer frequency of
    at least 1. *)
Theorem lib_validateConfiguration_is_stricter (e : env) (s : state) :
  (JS.truthy (repository (conf s)) = false ->
   Lib.validateConfiguration e s = Ok false s) /\
  (forall s' : state,
     Lib.validateConfiguration e s = Ok true s' ->
     validateConfiguration e s = Ok true s' /\
     JS.truthy (repository (conf s')) = true /\
     JS.truthy (path (conf s')) = true /\
     exists f : Z, frequency (conf s') = JS.Num f /\ 1 <= f).
Proof.
  rewrite lib_validateConfiguration_eq, validateConfiguration_eq. split.
  - intros Hr. rewrite Hr. simpl. unfold set_conf, derivePath.
    rewrite Hr, andb_false_r. destruct s; reflexivity.
  - intros s' [= Hverdict <-].
    apply andb_true_iff in Hverdict as [Hverdict Hfreq].
    apply andb_true_iff in Hverdict as [Hr Hp].
    assert (Hrepo : repository (derivePath (conf s)) = repository (conf s)).
    { unfold derivePath.
      destruct (negb (JS.truthy (path (conf s))) &&
                JS.truthy (repository (conf s))); reflexivity. }
    assert (Hf : frequency (derivePath (conf s)) = frequency (conf s)).
    { unfold derivePath.
      destruct (negb (JS.truthy (path (conf s))) &&
                JS.truthy (repository (conf s))); reflexivity. }
    destruct (frequency (conf s)) as [f|] eqn:Hfq; [|discriminate Hfreq].
    simpl in Hfreq. apply negb_true_iff in Hfreq.
    split.
    + unfold validSchedule. rewrite Hr, Hfq. simpl. rewrite Hfreq.
      simpl. rewrite orb_true_r. reflexivity.
    + simpl. rewrite Hrepo, Hf. split; [exact Hr|]. split; [exact Hp|].
      exists f. split; [reflexivity|]. apply Z.ltb_ge in Hfreq. exact Hfreq.
Qed.

Lemma lib_validateConfiguration_is_stricter_witness :
  Lib.validateConfiguration (world (0, 0) "" "")
    (set_conf (set_path (Some "repo")) state0)
  = Ok false (set_conf (set_path (Some "repo")) state0).
Proof.
  apply (proj1 (lib_validateConfiguration_is_stricter (world (0, 0) "" "")
                  (set_conf (set_path (Some "repo")) state0))).
  reflexivity.
Defined.

Section LibSteady.

Variable P : state -> Prop.
Hypothesis HP : steady P.

Lemma keeps_lib_startCommand : keeps P Lib.startCommand.
Proof.
  unfold Lib.startCommand. apply keeps_bind; [apply keeps_gets|intros c].
  destruct (command c) as [cmd|]; [|apply keeps_ret].
  apply keeps_bind; [apply keeps_ask|intros _].
  apply keeps_bind; [apply keeps_gets|intros p].
  apply keeps_bind; [apply (keeps_emit P HP)|intros _].
  apply keeps_bind;
    [apply keeps_modify; intros s; apply (steady_spawned P HP)|intros _].
  apply keeps_bind;
    [apply keeps_modify; intros s; apply (steady_children P HP)|intros _].
  apply keeps_modify; intros s; apply (steady_commandProcess P HP).
Qed.

Lemma keeps_lib_update : keeps P Lib.update.
Proof.
  unfold Lib.update. apply keeps_bind; [apply keeps_gets|intros h].
  destruct h as [p|].
  - apply keeps_bind; [apply (keeps_on_exit P HP)|intros _].
    apply keeps_bind; [apply keeps_gets|intros c].
    apply keeps_bind; [apply keeps_ask|intros _]. apply (keeps_emit P HP).
  - apply keeps_bind; [apply (keeps_execFileSync_git P HP)|intros _].
    apply keeps_bind; [apply (keeps_emit P HP)|intros _].
    apply keeps_lib_startCommand.
Qed.

Lemma keeps_lib_checkForUpdates : keeps P Lib.checkForUpdates.
Proof.
  unfold Lib.checkForUpdates.
  apply keeps_bind; [apply (keeps_emit P HP)|intros _].
  apply keeps_bind; [apply (keeps_execFileSync_git P HP)|intros _].
  apply keeps_bind; [apply (keeps_execFileSync_git P HP)|intros head_out].
  apply keeps_bind; [apply (keeps_execFileSync_git P HP)|intros upstream_out].
  apply keeps_bind; [apply (keeps_emit P HP)|intros _].
  apply keeps_bind; [apply (keeps_emit P HP)|intros _].
  apply keeps_when.
  apply keeps_bind; [apply (keeps_emit P HP)|intros _]. apply keeps_lib_update.
Qed.

Lemma keeps_lib_run_listener (l : listener) : keeps P (Lib.run_listener l).
Proof.
  destruct l; simpl.
  - apply keeps_modify. intros s. apply (steady_commandProcess P HP).
  - apply keeps_bind; [|intros _; apply keeps_lib_update].
    apply keeps_modify. intros s. apply (steady_commandProcess P HP).
Qed.

Lemma steady_lib_dispatch (e : env) (ev : Lib.event) (s : state) (o : outcome) :
  P s -> Lib.dispatch e ev s = Some o -> P (final o).
Proof.
  intros H Hstep.
  assert (Hfinal : forall r : result unit, final (finish r) = state_of r)
    by (intros [? ?|? ?|? ?]; reflexivity).
  destruct ev as [i|p]; unfold Lib.dispatch in Hstep.
  - destruct (timers s !! i); [|discriminate]. injection Hstep as <-.
    rewrite Hfinal. apply keeps_lib_checkForUpdates.
    apply (steady_record P HP), H.
  - destruct (children s !! p) as [ls|]; [|discriminate].
    injection Hstep as <-. rewrite Hfinal.
    apply keeps_forEach; [apply keeps_lib_run_listener|].
    apply (steady_record P HP), (steady_children P HP), H.
Qed.

End LibSteady.

Lemma steady_timers (ts : list JS.number) (c : config) :
  steady (fun s => timers s = ts /\ conf s = c).
Proof. constructor; intros; assumption. Qed.

(** X20: in the interval-only revision no turn of the event loop arms or
    clears a timer or writes the configuration: the interval set at the
    start is the only one, however the turns end. *)
Theorem lib_interval_stays
    (turns : list (env * Lib.event)) (s : state) (o : outcome) :
  Lib.run turns s = Some o ->
  timers (final o) = timers s /\ conf (final o) = conf s.
Proof.
  revert s. induction turns as [|[e ev] turns IH]; intros s Hrun.
  - injection Hrun as <-. split; reflexivity.
  - simpl in Hrun.
    destruct (Lib.dispatch e ev s) as [o1|] eqn:Hstep.
    2:{ destruct turns; discriminate Hrun. }
    pose proof (steady_lib_dispatch _ (steady_timers (timers s) (conf s))
                  e ev s o1 (conj eq_refl eq_refl) Hstep) as [Ht Hc].
    destruct o1 as [s1|code s1|s1].
    + simpl in Ht, Hc. destruct (IH s1 Hrun) as [Ht' Hc'].
      split; congruence.
    + destruct turns; [|discriminate Hrun]. injection Hrun as <-.
      split; assumption.
    + destruct turns; [|discriminate Hrun]. injection Hrun as <-.
      split; assumption.
Qed.

Lemma lib_interval_stays_witness :
  exists o : outcome,
    Lib.run [(world (0, 0) "1111" "2222", Lib.IntervalFires 0);
             (world (0, 0) "1111" "2222", Lib.ChildExits 0%nat)]
      Lib.sample_boot = Some o /\
    timers (final o) = [JS.Num 86400000].
Proof.
  destruct (Lib.run [(world (0, 0) "1111" "2222", Lib.IntervalFires 0);
                     (world (0, 0) "1111" "2222", Lib.ChildExits 0%nat)]
              Lib.sample_boot) as [o|] eqn:Hrun.
  - exists o. split; [reflexivity|].
    rewrite (proj1 (lib_interval_stays _ _ _ Hrun)). vm_compute. reflexivity.
  - vm_compute in Hrun. discriminate Hrun.
Defined.

Lemma lib_startCommand_eq (e : env) (s : state) :
  Lib.startCommand e s
    = match command (conf s) with
      | Some cmd =>
          match spawn e (name cmd) (args cmd) with
          | Returns _ =>
              Ok tt
                (set_commandProcess (Some (spawned s))
                   (set_children (insert (spawned s) [])
                      (set_spawned (S (spawned s))
                         (record
                            (Spawn (spawned s) (name cmd) (args cmd) "inherit")
                            s))))
          | Throws code => Throw code s
          end
      | None => Ok tt s
      end.
Proof.
  unfold Lib.startCommand. js_unfold.
  destruct (command (conf s)) as [cmd|]; [|reflexivity].
  destruct (spawn e (name cmd) (args cmd)); reflexivity.
Qed.

Lemma lib_update_eq (e : env) (s : state) :
  Lib.update e s
    = match commandProcess s with
      | Some p =>
          match kill e p (signal (conf s)) with
          | Returns _ => Ok tt (signalled p s)
          | Throws code => Throw code (listening p s)
          end
      | None =>
          match git e ["pull"] with
          | Returns _ =>
              Lib.startCommand e
                (record (Log (Line "Updated.")) (record git_pull s))
          | Throws code => Throw code (record git_pull s)
          end
      end.
Proof.
  unfold Lib.update.
  change [Some "pull"] with (map Some ["pull"]).
  unfold bind at 1. unfold gets at 1.
  destruct (commandProcess s) as [p|].
  - js_unfold. simpl.
    destruct (kill e p (signal (conf s))); reflexivity.
  - unfold bind at 1. rewrite execFileSync_git_eq.
    destruct (git e ["pull"]); reflexivity.
Qed.

(** X21: in the interval-only revision [startCommand] registers no listener
    for the exit of the child, so the handle survives the child: the exit
    leaves [commandProcess] as it is, and an update that follows only
    signals the child that is gone and then waits for an exit that cannot
    come; nothing is pulled. *)
Theorem lib_handle_outlives_child (e : env) (s : state) :
  (forall cmd : command_spec,
     command (conf s) = Some cmd ->
     spawn e (name cmd) (args cmd) = Returns tt ->
     exists s' : state,
       Lib.startCommand e s = Ok tt s' /\
       commandProcess s' = Some (spawned s) /\
       children s' !! spawned s = Some []) /\
  (forall p : pid,
     children s !! p = Some [] ->
     exists s' : state,
       Lib.dispatch e (Lib.ChildExits p) s = Some (Running s') /\
       commandProcess s' = commandProcess s /\
       children s' !! p = None /\
       history s' = history s ++ [ChildExited p]) /\
  (forall p : pid,
     commandProcess s = Some p ->
     children s !! p = None ->
     kill e p (signal (conf s)) = Returns tt ->
     exists s' : state,
       Lib.update e s = Ok tt s' /\
       history s' = history s ++ [Kill p (signal (conf s))] /\
       children s' = children s /\
       commandProcess s' = Some p /\
       forall e' : env, Lib.dispatch e' (Lib.ChildExits p) s' = None).
Proof.
  split; [|split].
  - intros cmd Hcommand Hspawn. rewrite lib_startCommand_eq, Hcommand, Hspawn.
    eexists. split; [reflexivity|]. split; [reflexivity|].
    simpl. apply lookup_insert_eq.
  - intros p Hp. unfold Lib.dispatch. unfold pid in *. rewrite Hp.
    eexists. split; [reflexivity|]. split; [reflexivity|].
    split; [simpl; apply lookup_delete_eq|reflexivity].
  - intros p Hh Hp Hkill. rewrite lib_update_eq, Hh, Hkill.
    assert (Hch : children (signalled p s) = children s).
    { simpl. apply alter_id'. exact Hp. }
    eexists. split; [reflexivity|]. split; [reflexivity|].
    split; [exact Hch|]. split; [exact Hh|].
    intros e'. unfold Lib.dispatch. unfold pid in *. rewrite Hch, Hp.
    reflexivity.
Qed.

Lemma lib_handle_outlives_child_witness :
  exists s' : state,
    Lib.dispatch (world (0, 0) "" "") (Lib.ChildExits 0%nat) Lib.sample_boot
      = Some (Running s') /\
    commandProcess s' = commandProcess Lib.sample_boot.
Proof.
  destruct (lib_handle_outlives_child (world (0, 0) "" "") Lib.sample_boot)
    as (_ & Hexit & _).
  destruct (Hexit 0%nat) as (s' & Hstep & Hh & _).
  - vm_compute. reflexivity.
  - exists s'. split; [exact Hstep|exact Hh].
Defined.

(** X22: in the interval-only revision, a child on which two updates are
    waiting makes both run when it exits: the first pulls and starts the
    command, the second pulls again while that command is running and starts
    a second one. *)
Theorem lib_two_listeners_pull_twice
    (e : env) (s : state) (p : pid) (cmd : command_spec) (pulled : string) :
  children s !! p = Some [ClearHandleAndUpdate; ClearHandleAndUpdate] ->
  command (conf s) = Some cmd ->
  git e ["pull"] = Returns pulled ->
  spawn e (name cmd) (args cmd) = Returns tt ->
  let n := spawned s in
  exists s' : state,
    Lib.dispatch e (Lib.ChildExits p) s = Some (Running s') /\
    history s' = history s ++
      [ ChildExited p;
        git_pull;
        Log (Line "Updated.");
        Spawn n (name cmd) (args cmd) "inherit";
        git_pull;
        Log (Line "Updated.");
        Spawn (S n) (name cmd) (args cmd) "inherit" ] /\
    commandProcess s' = Some (S n) /\
    children s' !! n = Some [] /\
    children s' !! S n = Some [] /\
    ~ pulls_undisturbed (history s').
Proof.
  intros Hp Hcommand Hpull Hspawn n.
  unfold Lib.dispatch. unfold pid in *. rewrite Hp.
  cbn [forEach Lib.run_listener]. unfold bind, modify.
  rewrite lib_update_eq. cbn [commandProcess set_commandProcess].
  rewrite Hpull, lib_startCommand_eq.
  cbn [conf record set_commandProcess set_children]. rewrite Hcommand, Hspawn.
  rewrite lib_update_eq. cbn [commandProcess set_commandProcess].
  rewrite Hpull, lib_startCommand_eq.
  cbn [conf record set_commandProcess set_children set_spawned].
  rewrite Hcommand, Hspawn.
  eexists. split; [reflexivity|].
  split; [simpl; repeat rewrite <- app_assoc; reflexivity|].
  split; [reflexivity|]. split.
  { simpl. rewrite lookup_insert_ne by lia. apply lookup_insert_eq. }
  split; [simpl; apply lookup_insert_eq|].
  intros Hquiet.
  specialize (Hquiet
    (history s ++
       [ChildExited p; git_pull; Log (Line "Updated.");
        Spawn n (name cmd) (args cmd) "inherit"])
    [Log (Line "Updated."); Spawn (S n) (name cmd) (args cmd) "inherit"]).
  cbn [history record set_commandProcess set_children set_spawned] in Hquiet.
  repeat rewrite <- app_assoc in Hquiet. simpl in Hquiet.
  specialize (Hquiet eq_refl).
  unfold running in Hquiet. rewrite running_from_app in Hquiet.
  unfold running_from in Hquiet. simpl in Hquiet.
  set_solver.
Qed.

Lemma lib_two_listeners_pull_twice_witness :
  exists s' : state,
    Lib.dispatch (world (0, 0) "1111" "2222") (Lib.ChildExits 0%nat)
      lib_overdue = Some (Running s') /\
    ~ pulls_undisturbed (history s').
Proof.
  edestruct (lib_two_listeners_pull_twice (world (0, 0) "1111" "2222")
               lib_overdue 0%nat {| name := "server"; args := [] |} "")
    as (s' & Hstep & _ & _ & _ & _ & Hnot).
  - vm_compute. reflexivity.
  - vm_compute. reflexivity.
  - reflexivity.
  - reflexivity.
  - exists s'. split; [exact Hstep|exact Hnot].
Defined.

(** X23: in the interval-only revision the checks go on during an update.
    A check that finds a new revision while the child is still there signals
    it again and registers one more listener on it, and the interval stays
    armed for the next check. *)
Theorem lib_interval_adds_listener
    (e : env) (s : state) (i : nat) (p : pid) (ls : list listener)
    (fetched head_out upstream_out : string) :
  is_Some (timers s !! i) ->
  commandProcess s = Some p ->
  children s !! p = Some ls ->
  git e ["fetch"] = Returns fetched ->
  git e ["rev-parse"; "HEAD"] = Returns head_out ->
  git e ["rev-parse"; "HEAD@{u}"] = Returns upstream_out ->
  JS.slice0 40 head_out <> JS.slice0 40 upstream_out ->
  kill e p (signal (conf s)) = Returns tt ->
  exists s' : state,
    Lib.dispatch e (Lib.IntervalFires i) s = Some (Running s') /\
    children s' !! p = Some (ls ++ [ClearHandleAndUpdate]) /\
    commandProcess s' = Some p /\
    timers s' = timers s /\
    last (history s') = Some (Kill p (signal (conf s))) /\
    is_Some (Lib.dispatch e (Lib.IntervalFires i) s').
Proof.
  intros [d Hd] Hh Hp Hfetch Hhead Hup Hne Hkill.
  apply String.eqb_neq in Hne.
  unfold Lib.dispatch. rewrite Hd.
  unfold Lib.checkForUpdates.
  change [Some "fetch"] with (map Some ["fetch"]).
  change [Some "rev-parse"; Some "HEAD"] with (map Some ["rev-parse"; "HEAD"]).
  change [Some "rev-parse"; Some "HEAD@{u}"]
    with (map Some ["rev-parse"; "HEAD@{u}"]).
  unfold bind at 1. unfold console_log at 1, emit, modify.
  unfold bind at 1. rewrite execFileSync_git_eq, Hfetch.
  unfold bind at 1. rewrite execFileSync_git_eq, Hhead.
  unfold bind at 1. rewrite execFileSync_git_eq, Hup.
  rewrite Hne. simpl negb. unfold when.
  unfold bind at 1. unfold console_log at 1, emit, modify.
  unfold bind at 1. unfold console_log at 1, emit, modify.
  unfold bind at 1. unfold console_log at 1, emit, modify.
  rewrite lib_update_eq. cbn [commandProcess record conf].
  rewrite Hh, Hkill.
  eexists. split; [reflexivity|]. split.
  { simpl. unfold pid in *. rewrite lookup_alter_eq, Hp. reflexivity. }
  split; [exact Hh|]. split; [reflexivity|].
  split; [simpl; apply last_snoc|].
  simpl. unfold pid in *. rewrite Hd. eexists; reflexivity.
Qed.


Lemma lib_interval_adds_listener_witness :
  exists s' : state,
    Lib.dispatch (world (0, 0) "1111" "2222") (Lib.IntervalFires 0)
      Lib.sample_boot = Some (Running s') /\
    children s' !! 0%nat = Some [ClearHandleAndUpdate].
Proof.
  edestruct (lib_interval_adds_listener (world (0, 0) "1111" "2222")
               Lib.sample_boot 0%nat 0%nat [] "" "1111" "2222")
    as (s' & Hstep & Hch & _).
  - vm_compute. eexists. reflexivity.
  - vm_compute. reflexivity.
  - vm_compute. reflexivity.
  - reflexivity.
  - reflexivity.
  - reflexivity.
  - vm_compute. discriminate.
  - reflexivity.
  - exists s'. split; [exact Hstep|exact Hch].
Defined.
(** ** Worked examples for the command line and the working tree *)

Lemma main_help_witness :
  main ["node"; "git-auto-updater"; "-b"; "main"; "--help"; "--"; "server"]
       (world (0, 0) "" "")
    = Exited 0 (printed usage (set_conf (set_branch (Some "main")) state0)).
Proof.
  apply (main_help "node" "git-auto-updater" "--help"
           [(OptBranch, false, "main")] ["--"; "server"] (world (0, 0) "" ""));
    reflexivity.
Defined.

Lemma parseLoop_command_witness :
  parseLoop false ["--"; "server"; "--help"; "-p"; "80"] (world (0, 0) "" "")
    state0
  = Ok tt (set_conf
             (set_command
                (Some {| name := "server"; args := ["--help"; "-p"; "80"] |}))
             state0).
Proof.
  apply (proj1 (parseLoop_command "server" ["--help"; "-p"; "80"]
                  (world (0, 0) "" "") state0 eq_refl)).
Defined.

Lemma prepareWorkingTree_not_directory_witness :
  exists s' : state, prepareWorkingTree file_world bare_boot = Exit 1 s'.
Proof.
  eexists. apply (prepareWorkingTree_not_directory file_world bare_boot).
  reflexivity.
Defined.

Lemma prepareWorkingTree_existing_witness :
  exists s' : state,
    prepareWorkingTree (world (0, 0) "" "") bare_boot = Ok tt s'.
Proof.
  eexists.
  rewrite (prepareWorkingTree_existing (world (0, 0) "" "") bare_boot
             "master" "" "" eq_refl eq_refl eq_refl eq_refl eq_refl).
  reflexivity.
Defined.

Lemma prepareWorkingTree_reports_failure_witness :
  exists s' : state, prepareWorkingTree offline_world bare_boot = Exit 1 s'.
Proof.
  edestruct (prepareWorkingTree_reports_failure offline_world bare_boot)
    as [Hother _].
  - vm_compute. reflexivity.
  - eexists. apply Hother. discriminate.
Defined.

Lemma prepareWorkingTree_clones_missing_path_witness :
  exists s' : state,
    prepareWorkingTree (fresh_world (0, 0)) bare_boot = Ok tt s'.
Proof.
  eexists.
  rewrite (prepareWorkingTree_clones_missing_path (fresh_world (0, 0))
             bare_boot "https://example.com/x.git" "x" "master");
    [reflexivity|reflexivity|discriminate|reflexivity..].
Defined.

Lemma prepareWorkingTree_takes_git_ENOENT_for_missing_path_witness :
  exists (code : option string) (s' : state),
    prepareWorkingTree gitless_world bare_boot = Throw code s' /\
    last (history s')
      = Some (ExecFileSync "git"
                ["clone"; "https://example.com/x.git"; "x"; "--branch";
                 "master"]).
Proof.
  eexists. eexists.
  rewrite (prepareWorkingTree_takes_git_ENOENT_for_missing_path gitless_world
             bare_boot "https://example.com/x.git" "x" "master");
    [|reflexivity|discriminate|reflexivity..].
  split; [reflexivity|]. vm_compute. reflexivity.
Defined.

(** ** The top level, from the command line to the event loop *)

Lemma parseArguments_line
    (node file : string) (opts : list (operand_option * bool * string))
    (words : list string) (e : env) :
  is_option file = false ->
  parseArguments (node :: file :: spelled_options opts ++ "--" :: words) e
      state0
    = Ok tt (set_conf (fun _ => parsed opts words) state0).
Proof.
  intros Hfile. unfold parseArguments. simpl tail.
  rewrite parseLoop_unknown by exact Hfile.
  rewrite parseLoop_options_app.
  unfold parsed. destruct words as [|first more]; simpl command_of.
  - reflexivity.
  - change (parseLoop false ("--" :: first :: more) e
              (set_conf (assign_all opts) state0))
      with (parseLoop true (first :: more) e
              (set_conf (assign_all opts) state0)).
    rewrite parseLoop_building. simpl fold_left.
    assert (Hnone : command (assign_all opts conf0) = None)
      by (rewrite assign_all_command; reflexivity).
    unfold set_conf. simpl conf. f_equal. f_equal.
    erewrite buildCommand_more
      by (unfold buildCommand; rewrite Hnone; reflexivity).
    unfold buildCommand. rewrite Hnone. reflexivity.
Qed.

Lemma parsed_valid (opts : list (operand_option * bool * string))
    (words : list string) :
  validConfiguration (parsed opts words)
    = validConfiguration (assign_all opts conf0).
Proof. unfold parsed. destruct (command_of words); reflexivity. Qed.

(** X24: a command line whose options leave neither a repository URI nor a
    path, or leave a frequency that is no integer of at least 1 and no time
    of day, ends the program with status 1 after the complaint and the usage
    text, whatever command follows [--]: nothing is looked up on disk, no
    git command runs and no process is started. *)
Theorem main_rejects_invalid_options
    (node file : string) (opts : list (operand_option * bool * string))
    (words : list string) (e : env) :
  is_option file = false ->
  validConfiguration (assign_all opts conf0) = false ->
  main (node :: file :: spelled_options opts ++ "--" :: words) e
    = Exited 1
        (printed usage
           (record (Log (Line "Not enough or invalid arguments"))
              (set_conf (fun _ => derivePath (parsed opts words)) state0))).
Proof.
  intros Hfile Hinvalid. unfold main, script, setUp.
  unfold bind at 1. unfold bind at 1. unfold bind at 1.
  rewrite parseArguments_line by exact Hfile.
  unfold bind at 1. rewrite validateConfiguration_eq.
  pose proof (parsed_valid opts words) as Hv.
  unfold validConfiguration in Hv, Hinvalid. simpl conf.
  rewrite Hv, Hinvalid. simpl negb. unfold when.
  unfold bind at 1. unfold bind at 1. unfold bind at 1.
  unfold console_log at 1, emit, modify.
  rewrite printUsage_eq. reflexivity.
Qed.

Lemma main_rejects_invalid_options_witness :
  main ["node"; "git-auto-updater"; "-r"; "https://example.com/x.git";
        "--frequency"; "0"; "--"; "server"] (world (0, 0) "" "")
    = Exited 1
        (printed usage
           (record (Log (Line "Not enough or invalid arguments"))
              (set_conf
                 (fun _ =>
                    derivePath
                      (parsed [(OptRepository, false,
                                "https://example.com/x.git");
                               (OptFrequency, true, "0")] ["server"]))
                 state0))).
Proof.
  apply (main_rejects_invalid_options "node" "git-auto-updater"
           [(OptRepository, false, "https://example.com/x.git");
            (OptFrequency, true, "0")] ["server"] (world (0, 0) "" ""));
    reflexivity.
Defined.
(** X25: the first start.  For a command line of options with operands
    followed by [--] and a command, accepted by the validation, whose path
    does not exist yet: when the clone, the change of directory and the
    spawn succeed, the top level returns to the event loop having echoed the
    configuration, probed the path, cloned the repository into it with the
    branch, changed into it, started the command (if there is one) and armed
    exactly one timer with the delay of the configuration.  It does not
    fetch, check out or pull on this way. *)
Theorem main_fresh_clone
    (node file : string) (opts : list (operand_option * bool * string))
    (words : list string) (e : env) (r p b out : string) :
  let c := derivePath (parsed opts words) in
  let d := nextDelay c (clock e) in
  is_option file = false ->
  validConfiguration (assign_all opts conf0) = true ->
  repository c = Some r -> r <> "" ->
  path c = Some p -> branch c = Some b ->
  statSync e (Some p) = Throws (Some "ENOENT") ->
  git e ["clone"; r; p; "--branch"; b] = Returns out ->
  chdir_cloned e = Returns tt ->
  (forall cmd : command_spec,
     command_of words = Some cmd ->
     spawn e (name cmd) (args cmd) = Returns tt) ->
  exists s : state,
    main (node :: file :: spelled_options opts ++ "--" :: words) e = Running s /\
    conf s = c /\
    command c = command_of words /\
    history s
      = echo c ++
        [StatSync (Some p);
         ExecFileSync "git" ["clone"; r; p; "--branch"; b];
         Chdir (Some p)] ++
        match command_of words with
        | Some cmd => [Spawn 0%nat (name cmd) (args cmd) "inherit"]
        | None => []
        end ++
        [Log (Scheduling d); SetTimeout d] /\
    timers s = [d] /\
    match command_of words with
    | Some _ =>
        commandProcess s = Some 0%nat /\
        children s = {[ 0%nat := [ClearHandle] ]} /\ spawned s = 1%nat
    | None =>
        commandProcess s = None /\ children s = ∅ /\ spawned s = 0%nat
    end.
Proof.
  intros c d Hfile Hvalid Hr Hne Hp Hb Hstat Hclone Hchdir Hspawn.
  assert (Hcmd : command c = command_of words).
  { unfold c, derivePath, parsed.
    pose proof (assign_all_command opts conf0) as Hnone.
    destruct (command_of words) as [cmd|];
      match goal with |- context [if ?t then _ else _] => destruct t end;
      simpl; try rewrite Hnone; reflexivity. }
  unfold main, script, setUp.
  unfold bind at 1. unfold bind at 1. unfold bind at 1.
  rewrite parseArguments_line by exact Hfile.
  unfold bind at 1. rewrite validateConfiguration_eq.
  pose proof (parsed_valid opts words) as Hv.
  unfold validConfiguration in Hv, Hvalid. simpl conf.
  rewrite Hv, Hvalid. simpl negb. unfold when.
  unfold bind at 1. unfold ret at 1.
  unfold bind at 1. unfold gets at 1.
  unfold bind at 1. unfold bind at 1.
  unfold console_log at 1, emit at 1, modify at 1.
  simpl conf. fold c.
  set (s0 := record (Log (ConfigEcho c))
               (set_conf derivePath (set_conf (fun _ => parsed opts words) state0))).
  set (s1 := match command c with
             | Some cmd =>
                 record (Log (Line ("command: " +:+ commandString cmd))) s0
             | None => s0
             end).
  assert (Hecho :
    match command c with
    | Some cmd => console_log (Line ("command: " +:+ commandString cmd))
    | None => ret tt
    end e s0 = Ok tt s1).
  { unfold s1. destruct (command c); reflexivity. }
  change (conf (set_conf derivePath
                  (set_conf (fun _ : config => parsed opts words) state0)))
    with c.
  rewrite Hecho.
  assert (Hs1 : conf s1 = c /\ history s1 = echo c /\
                commandProcess s1 = None /\ children s1 = ∅ /\
                spawned s1 = 0%nat /\ timers s1 = []).
  { unfold s1, echo. destruct (command c); repeat split; reflexivity. }
  destruct Hs1 as (Hc1 & Hh1 & Hcp1 & Hch1 & Hsp1 & Hts1).
  rewrite prepareWorkingTree_eq. unfold try_catch. rewrite Hc1.
  assert (Hprobe : probeWorkingTree c e s1
                   = Throw (Some "ENOENT") (record (StatSync (Some p)) s1)).
  { unfold probeWorkingTree. js_unfold. rewrite Hp, Hstat. reflexivity. }
  rewrite Hprobe.
  rewrite (cloneWorkingTree_clones c r p b) by assumption. cbv zeta.
  rewrite Hclone, Hchdir.
  rewrite startCommand_eq. simpl conf. rewrite Hc1, Hcmd.
  destruct (command_of words) as [cmd|] eqn:Hwords.
  - rewrite (Hspawn cmd eq_refl). rewrite scheduleUpdateCheck_eq.
    eexists. split; [reflexivity|]. simpl. rewrite Hc1, Hh1, Hsp1, Hch1, Hts1.
    fold d. rewrite <- ?app_assoc, ?insert_empty.
    repeat split; reflexivity.
  - rewrite scheduleUpdateCheck_eq.
    eexists. split; [reflexivity|]. simpl. rewrite Hc1, Hh1, Hts1.
    fold d. rewrite <- ?app_assoc.
    repeat split; try assumption; reflexivity.
Qed.

Lemma main_fresh_clone_witness :
  exists s : state,
    main ["node"; "git-auto-updater"; "--repository";
          "https://example.com/x.git"; "--frequency"; "60"; "--"; "server"]
         (fresh_world (0, 0)) = Running s /\
    timers s = [JS.Num 3600000] /\
    commandProcess s = Some 0%nat.
Proof.
  destruct (main_fresh_clone "node" "git-auto-updater"
              [(OptRepository, true, "https://example.com/x.git");
               (OptFrequency, true, "60")] ["server"] (fresh_world (0, 0))
              "https://example.com/x.git" "x" "master" "")
    as (s & Hmain & _ & _ & _ & Hts & Hcp & _);
    try reflexivity; try discriminate.
  exists s. split; [exact Hmain|]. split; [|exact Hcp].
  rewrite Hts. vm_compute. reflexivity.
Defined.
